(** * Interval tree used as a memoization table (augmented AVL tree)

    A shallow embedding of the class [interval_tree_genomics] of
    [remove_common_subsequences_dp_reinventing_the_wheel.py].

    The Python objects live in an explicit object store: a node is a record
    of its attributes, a reference is an index into the store, and every
    attribute assignment of the source is one update of the store.  Methods
    thread the store and return a [result]: a normal return, a Python
    exception, or exhaustion of the recursion budget of the model. *)

From Stdlib Require Import ZArith Lia Ascii.
From stdpp Require Import base tactics option list strings pretty.

Local Open Scope Z_scope.

(** ** Python values and objects *)

Abbreviation addr := nat (only parsing).

(** The payload attributes are never inspected by the tree. *)
Inductive pyval :=
  | PyNone
  | PyInt (z : Z)
  | PyStr (s : string).

Record node := Node {
  node_id : Z;
  left_child : option addr;
  right_child : option addr;
  parent : option addr;
  sequence : pyval;
  balance_factor : Z;
  interval_start : Z;
  interval_end : Z;
  ref_seq_id : pyval;
  targ_seq_id : pyval;
  max_position : Z
}.

Abbreviation heap := (list node) (only parsing).

(** Attribute assignments. *)
Definition set_left_child (v : option addr) (n : node) : node :=
  Node (node_id n) v (right_child n) (parent n) (sequence n)
       (balance_factor n) (interval_start n) (interval_end n)
       (ref_seq_id n) (targ_seq_id n) (max_position n).

Definition set_right_child (v : option addr) (n : node) : node :=
  Node (node_id n) (left_child n) v (parent n) (sequence n)
       (balance_factor n) (interval_start n) (interval_end n)
       (ref_seq_id n) (targ_seq_id n) (max_position n).

Definition set_parent (v : option addr) (n : node) : node :=
  Node (node_id n) (left_child n) (right_child n) v (sequence n)
       (balance_factor n) (interval_start n) (interval_end n)
       (ref_seq_id n) (targ_seq_id n) (max_position n).

Definition set_balance_factor (v : Z) (n : node) : node :=
  Node (node_id n) (left_child n) (right_child n) (parent n) (sequence n)
       v (interval_start n) (interval_end n)
       (ref_seq_id n) (targ_seq_id n) (max_position n).

Definition set_max_position (v : Z) (n : node) : node :=
  Node (node_id n) (left_child n) (right_child n) (parent n) (sequence n)
       (balance_factor n) (interval_start n) (interval_end n)
       (ref_seq_id n) (targ_seq_id n) v.

(** ** Outcomes of a method call *)

Inductive exn :=
  | AttributeError   (* attribute access on [None], or a missing attribute *)
  | ValueError.      (* raised by the balance-factor guard *)

Inductive result (A : Type) :=
  | Ok (a : A)
  | Raise (e : exn)
  | OutOfFuel        (* the model's recursion budget ran out *)
  | Dangling.        (* a reference outside the store: no Python object *)
Arguments Ok {A} a.
Arguments Raise {A} e.
Arguments OutOfFuel {A}.
Arguments Dangling {A}.

#[global] Instance result_ret : MRet result := λ A a, Ok a.
#[global] Instance result_bind : MBind result := λ A B f m,
  match m with
  | Ok a => f a
  | Raise e => Raise e
  | OutOfFuel => OutOfFuel
  | Dangling => Dangling
  end.

(** What a method hands back: [None] or a reference to a node. *)
Abbreviation pyret := (option addr) (only parsing).

(** ** The object store *)

Definition get (h : heap) (a : addr) : result node :=
  match h !! a with
  | Some n => Ok n
  | None => Dangling
  end.

(** [store a f h]: one attribute assignment on the object at [a]. *)
Definition store (a : addr) (f : node → node) (h : heap) : heap := alter f a h.

(** [o.attr] where [o] may be [None]. *)
Definition deref (o : option addr) : result addr :=
  match o with
  | Some a => Ok a
  | None => Raise AttributeError
  end.

(** ** Class attributes and [__init__] *)

(** The class body binds [id_counter = 0]; [_id_counter] is an attribute the
    class body never binds, so it is present only if something else bound
    it. *)
Record class_state := Class {
  id_counter : Z;
  _id_counter : option Z
}.

Definition class_body : class_state := Class 0 None.

Definition __init__ (cls : class_state) (h : heap) (start end_ : Z)
    (left right parent_ : option addr) (sequence_ ref_seq_id_ targ_seq_id_ : pyval)
    : result (class_state * heap * addr) :=
  match _id_counter cls with
  | None => Raise AttributeError
  | Some k =>
      let self := length h in
      Ok (Class (id_counter cls) (Some (k + 1)),
          h ++ [Node k left right parent_ sequence_ 0 start end_
                     ref_seq_id_ targ_seq_id_ end_],
          self)
  end.

(** ** Root lookup *)

Fixpoint get_root (fuel : nat) (h : heap) (current : addr) : result addr :=
  match fuel with
  | O => OutOfFuel
  | S fuel' =>
      c ← get h current;
      match parent c with
      | None => Ok current
      | Some p => get_root fuel' h p
      end
  end.

Definition update_root (fuel : nat) (h : heap) (self : addr)
    : result (heap * addr) :=
  root ← get_root fuel h self;
  r ← get h root;
  match parent r with
  | Some _ => Ok (store root (set_parent None) h, root)
  | None => Ok (h, root)
  end.

(** ** Rotations *)

Definition _single_left_rotation (fuel : nat) (h : heap) (self : addr)
    : result (heap * addr) :=
  s ← get h self;
  new_root ← deref (right_child s);
  nr ← get h new_root;
  let h := store self (set_right_child (left_child nr)) h in
  nr ← get h new_root;
  let h := match left_child nr with
           | Some t => store t (set_parent (Some self)) h
           | None => h
           end in
  s ← get h self;
  let h := store new_root (set_parent (parent s)) h in
  s ← get h self;
  h ← match parent s with
      | None => Ok h
      | Some p =>
          pn ← get h p;
          if decide (Some self = left_child pn)
          then Ok (store p (set_left_child (Some new_root)) h)
          else Ok (store p (set_right_child (Some new_root)) h)
      end;
  let h := store new_root (set_left_child (Some self)) h in
  let h := store self (set_parent (Some new_root)) h in
  let h := store self (set_balance_factor 0) h in
  let h := store new_root (set_balance_factor 0) h in
  update_root fuel h new_root.

Definition _single_right_rotation (fuel : nat) (h : heap) (self : addr)
    : result (heap * addr) :=
  s ← get h self;
  new_root ← deref (left_child s);
  nr ← get h new_root;
  let h := store self (set_left_child (right_child nr)) h in
  nr ← get h new_root;
  let h := match right_child nr with
           | Some t => store t (set_parent (Some self)) h
           | None => h
           end in
  s ← get h self;
  let h := store new_root (set_parent (parent s)) h in
  s ← get h self;
  h ← match parent s with
      | None => Ok h
      | Some p =>
          pn ← get h p;
          if decide (Some self = left_child pn)
          then Ok (store p (set_left_child (Some new_root)) h)
          else Ok (store p (set_right_child (Some new_root)) h)
      end;
  let h := store new_root (set_right_child (Some self)) h in
  let h := store self (set_parent (Some new_root)) h in
  let h := store self (set_balance_factor 0) h in
  let h := store new_root (set_balance_factor 0) h in
  update_root fuel h new_root.

(** The double rotations discard what the single rotations return. *)
Definition _double_right_left_rotation (fuel : nat) (h : heap) (self : addr)
    : result (heap * pyret) :=
  s ← get h self;
  r ← deref (right_child s);
  '(h, _) ← _single_right_rotation fuel h r;
  '(h, _) ← _single_left_rotation fuel h self;
  Ok (h, None).

Definition _double_left_right_rotation (fuel : nat) (h : heap) (self : addr)
    : result (heap * pyret) :=
  s ← get h self;
  l ← deref (left_child s);
  '(h, _) ← _single_left_rotation fuel h l;
  '(h, _) ← _single_right_rotation fuel h self;
  Ok (h, None).

(** ** The rebalancing driver *)

(** [o.balance_factor] for a child reference [o]. *)
Definition child_balance_factor (h : heap) (o : option addr) : result Z :=
  c ← deref o;
  cn ← get h c;
  Ok (balance_factor cn).

(** [a and b], where [b] is only evaluated when [a] holds. *)
Definition and_then (a : bool) (b : result bool) : result bool :=
  if a then b else Ok false.

Fixpoint _update_balance_factors_and_rebalance (fuel : nat) (h : heap)
    (self : addr) (insertion_at_right_subtree : bool) : result (heap * pyret) :=
  match fuel with
  | O => OutOfFuel
  | S fuel' =>
      s ← get h self;
      let h := store self (set_balance_factor
                 (if insertion_at_right_subtree
                  then balance_factor s + 1
                  else balance_factor s - 1)) h in
      s ← get h self;
      if balance_factor s =? 0 then Ok (h, None)
      else if Z.abs (balance_factor s) >? 2 then Raise ValueError
      else
        c ← and_then (balance_factor s =? 2)
              (b ← child_balance_factor h (right_child s); Ok (b =? 1));
        if c : bool then
          '(h, _) ← _single_left_rotation fuel' h self; Ok (h, None)
        else
        c ← and_then (balance_factor s =? 2)
              (b ← child_balance_factor h (right_child s); Ok (b =? -1));
        if c : bool then
          '(h, _) ← _double_right_left_rotation fuel' h self; Ok (h, None)
        else
        c ← and_then (balance_factor s =? -2)
              (b ← child_balance_factor h (left_child s); Ok (b =? -1));
        if c : bool then
          '(h, _) ← _single_right_rotation fuel' h self; Ok (h, None)
        else
        c ← and_then (balance_factor s =? -2)
              (b ← child_balance_factor h (left_child s); Ok (b =? 1));
        if c : bool then
          '(h, _) ← _double_left_right_rotation fuel' h self; Ok (h, None)
        else
        match parent s with
        | None => Ok (h, None)
        | Some p =>
            pn ← get h p;
            r ← deref (right_child pn);
            rn ← get h r;
            _update_balance_factors_and_rebalance fuel' h p
              (node_id rn =? node_id s)
        end
  end.

(** ** Insertion *)

Fixpoint insert (fuel : nat) (h : heap) (self node : addr)
    : result (heap * pyret) :=
  match fuel with
  | O => OutOfFuel
  | S fuel' =>
      s ← get h self;
      n ← get h node;
      h ← (if interval_start s >=? interval_start n then
             match left_child s with
             | Some c => '(h, _) ← insert fuel' h c node; Ok h
             | None =>
                 let h := store node (set_parent (Some self)) h in
                 let h := store self (set_left_child (Some node)) h in
                 '(h, _) ← _update_balance_factors_and_rebalance fuel' h self false;
                 Ok h
             end
           else if interval_start s <? interval_start n then
             match right_child s with
             | Some c => '(h, _) ← insert fuel' h c node; Ok h
             | None =>
                 let h := store node (set_parent (Some self)) h in
                 let h := store self (set_right_child (Some node)) h in
                 '(h, _) ← _update_balance_factors_and_rebalance fuel' h self true;
                 Ok h
             end
           else Ok h);
      s ← get h self;
      match left_child s, right_child s with
      | None, None => Ok (h, None)
      | Some l, None =>
          ln ← get h l;
          Ok (store self (set_max_position
                (Z.max (max_position s) (max_position ln))) h, None)
      | None, Some r =>
          rn ← get h r;
          Ok (store self (set_max_position
                (Z.max (max_position s) (max_position rn))) h, None)
      | Some l, Some r =>
          ln ← get h l;
          rn ← get h r;
          Ok (store self (set_max_position
                (Z.max (Z.max (max_position ln) (max_position rn))
                       (max_position s))) h, None)
      end
  end.

(** ** Deletion: the body is [pass] *)

Definition delete (h : heap) (self node : addr) : result (heap * pyret) :=
  Ok (h, None).

(** ** The loop of the [__main__] block

    The first interval becomes [tree]; every later one is inserted by
    [tree.insert(node)], and [tree] is never rebound. *)
Fixpoint main (fuel : nat) (cls : class_state) (h : heap) (tree : option addr)
    (intervals : list (Z * Z)) : result (class_state * heap * option addr) :=
  match intervals with
  | [] => Ok (cls, h, tree)
  | (start, end_) :: rest =>
      '(cls, h, node) ← __init__ cls h start end_ None None None
                          PyNone PyNone PyNone;
      match tree with
      | None => main fuel cls h (Some node) rest
      | Some t =>
          '(h, _) ← insert fuel h t node;
          main fuel cls h (Some t) rest
      end
  end.

(** ** Attributes that identify an entry

    The identifier, the interval and the opaque payload of a node. *)
Definition entry (n : node) : Z * Z * Z * pyval * pyval * pyval :=
  (node_id n, interval_start n, interval_end n,
   sequence n, ref_seq_id n, targ_seq_id n).

Definition same_entries (h h' : heap) : Prop :=
  ∀ a, entry <$> h' !! a = entry <$> h !! a.

Definition keeps_entry (f : node → node) : Prop := ∀ n, entry (f n) = entry n.

(** ** Placement, as the specification words it

    Descend from [cur], comparing [interval_start] with the key of the new
    node: a visited node whose start is at least the key sends the descent
    to its left child (ties go left), any other to its right child; the
    descent stops at the first missing child.  [find_slot] returns the
    nodes passed on the way down (outermost first), the node under which
    the slot is free, and whether the slot is the right one. *)
Fixpoint find_slot (fuel : nat) (h : heap) (cur : addr) (key : Z)
    : result (list addr * addr * bool) :=
  match fuel with
  | O => OutOfFuel
  | S fuel' =>
      c ← get h cur;
      if interval_start c >=? key then
        match left_child c with
        | Some l =>
            '(path, p, at_right) ← find_slot fuel' h l key;
            Ok (cur :: path, p, at_right)
        | None => Ok ([], cur, false)
        end
      else
        match right_child c with
        | Some r =>
            '(path, p, at_right) ← find_slot fuel' h r key;
            Ok (cur :: path, p, at_right)
        | None => Ok ([], cur, true)
        end
  end.

(** The same descent as a relation. *)
Inductive descent (h : heap) (key : Z) : addr → list addr → addr → bool → Prop :=
  | descent_left_free cur c :
      h !! cur = Some c → key ≤ interval_start c → left_child c = None →
      descent h key cur [] cur false
  | descent_left cur c l path p at_right :
      h !! cur = Some c → key ≤ interval_start c → left_child c = Some l →
      descent h key l path p at_right →
      descent h key cur (cur :: path) p at_right
  | descent_right_free cur c :
      h !! cur = Some c → interval_start c < key → right_child c = None →
      descent h key cur [] cur true
  | descent_right cur c r path p at_right :
      h !! cur = Some c → interval_start c < key → right_child c = Some r →
      descent h key r path p at_right →
      descent h key cur (cur :: path) p at_right.

(** Attaching [node] in the free slot of [p]: [node.parent = p], then the
    child link of [p]. *)
Definition attach (h : heap) (p : addr) (at_right : bool) (node : addr) : heap :=
  let h := store node (set_parent (Some p)) h in
  store p ((if at_right then set_right_child else set_left_child) (Some node)) h.

(** The last statements of [insert]: [self.max_position] is raised to the
    [max_position] of the children that exist. *)
Definition refresh_max_position (h : heap) (self : addr) : result heap :=
  s ← get h self;
  match left_child s, right_child s with
  | None, None => Ok h
  | Some l, None =>
      ln ← get h l;
      Ok (store self (set_max_position
            (Z.max (max_position s) (max_position ln))) h)
  | None, Some r =>
      rn ← get h r;
      Ok (store self (set_max_position
            (Z.max (max_position s) (max_position rn))) h)
  | Some l, Some r =>
      ln ← get h l;
      rn ← get h r;
      Ok (store self (set_max_position
            (Z.max (Z.max (max_position ln) (max_position rn))
                   (max_position s))) h)
  end.

(** The pending calls of [insert] return innermost first. *)
Fixpoint unwind (frames : list addr) (h : heap) : result heap :=
  match frames with
  | [] => Ok h
  | a :: inner => h ← unwind inner h; refresh_max_position h a
  end.

(** Insertion as placement, then the driver at the parent of the new node,
    then the pending [max_position] updates. *)
Definition insert_by_placement (fuel : nat) (h : heap) (self node : addr)
    : result (heap * pyret) :=
  n ← get h node;
  '(path, p, at_right) ← find_slot fuel h self (interval_start n);
  '(h, _) ← _update_balance_factors_and_rebalance
              (fuel - S (length path))%nat (attach h p at_right node) p at_right;
  h ← unwind (path ++ [p]) h;
  Ok (h, None).

(** ** Well-formed stores

    [linked rank h]: child and parent links agree, the two children of a
    node are different objects, and [rank] grows strictly from a node to
    its children, so that the links form a forest. *)
Record linked (rank : addr → Z) (h : heap) : Prop := Linked {
  linked_left : ∀ a n c,
    h !! a = Some n → left_child n = Some c →
    ∃ cn, h !! c = Some cn ∧ parent cn = Some a ∧ rank a < rank c;
  linked_right : ∀ a n c,
    h !! a = Some n → right_child n = Some c →
    ∃ cn, h !! c = Some cn ∧ parent cn = Some a ∧ rank a < rank c;
  linked_parent : ∀ a n p,
    h !! a = Some n → parent n = Some p →
    ∃ pn, h !! p = Some pn ∧
          (left_child pn = Some a ∨ right_child pn = Some a);
  linked_sides : ∀ a n c,
    h !! a = Some n → left_child n = Some c → right_child n ≠ Some c
}.

(** A stored balance factor at rest: within [-1, 1], and not leaning
    towards a side that has no child. *)
Definition settled (n : node) : Prop :=
  -1 ≤ balance_factor n ≤ 1 ∧
  (right_child n = None → balance_factor n ≤ 0) ∧
  (left_child n = None → 0 ≤ balance_factor n).

Definition unique_ids (h : heap) : Prop :=
  ∀ a b na nb,
    h !! a = Some na → h !! b = Some nb → node_id na = node_id nb → a = b.

Definition forest (h : heap) : Prop :=
  (∃ rank, linked rank h) ∧ unique_ids h ∧
  ∀ a n, h !! a = Some n → settled n.

(** A node as [__init__] leaves it when called with the two interval
    bounds only: no links, balance factor [0]. *)
Definition detached (n : node) : Prop :=
  left_child n = None ∧ right_child n = None ∧ parent n = None ∧
  balance_factor n = 0.

(** What a rotation does to an object, as far as balance factors go: the
    identifier stays, and either the balance factor is reset to [0], or it
    is kept and no child link is cleared. *)
Definition reset_or_kept (n n' : node) : Prop :=
  node_id n' = node_id n ∧
  (balance_factor n' = 0 ∨
   (balance_factor n' = balance_factor n ∧
    (left_child n' = None → left_child n = None) ∧
    (right_child n' = None → right_child n = None))).

Definition rotation_effect (self : addr) (h h' : heap) : Prop :=
  (∀ x n', h' !! x = Some n' → ∃ n, h !! x = Some n ∧ reset_or_kept n n') ∧
  (∀ n', h' !! self = Some n' → balance_factor n' = 0).

(** ** Stores built by insertions

    The first created node is a tree on its own; every later node is
    created and then inserted through some node already in the store (the
    current top or any other handle the caller holds), and only an
    insertion that returns counts. *)
Inductive reachable : class_state → heap → Prop :=
  | reachable_first cls start end_ sequence_ ref_seq_id_ targ_seq_id_ cls' h' a :
      __init__ cls [] start end_ None None None
               sequence_ ref_seq_id_ targ_seq_id_ = Ok (cls', h', a) →
      reachable cls' h'
  | reachable_insert cls h self start end_ sequence_ ref_seq_id_ targ_seq_id_
                     cls1 h1 node fuel h2 v :
      reachable cls h →
      is_Some (h !! self) →
      __init__ cls h start end_ None None None
               sequence_ ref_seq_id_ targ_seq_id_ = Ok (cls1, h1, node) →
      insert fuel h1 self node = Ok (h2, v) →
      reachable cls1 h2.

(** ** Rotations, seen from outside

    [child d] is the right child for [d = true] and the left child
    otherwise; [rotate true] is the single left rotation, which promotes
    the right child, and [rotate false] the single right rotation. *)
Definition child (at_right : bool) (n : node) : option addr :=
  if at_right then right_child n else left_child n.

Definition set_child (at_right : bool) (v : option addr) (n : node) : node :=
  if at_right then set_right_child v n else set_left_child v n.

Definition rotate (d : bool) :=
  if d then _single_left_rotation else _single_right_rotation.

(** The relinking of the former parent: the test of the source is on the
    left child in both rotations. *)
Definition reparent (s r : addr) (pn : node) : node :=
  if decide (Some s = left_child pn) then set_left_child (Some r) pn
  else set_right_child (Some r) pn.

Definition store_opt (o : option addr) (f : node → node) (h : heap) :=
  match o with Some a => store a f h | None => h end.

(** The store a rotation at [s] leaves, when [r] is the promoted child and
    [ns], [nr] are the two nodes as they were. *)
Definition rotated (d : bool) (h : heap) (s r : addr) (ns nr : node)
    : heap :=
  store r (set_balance_factor 0)
    (store s (set_balance_factor 0)
      (store s (set_parent (Some r))
        (store r (set_child (negb d) (Some s))
          (store_opt (parent ns) (reparent s r)
            (store r (set_parent (parent ns))
              (store_opt (child (negb d) nr) (set_parent (Some s))
                (store s (set_child d (child (negb d) nr)) h))))))).

(** The same store, object by object. *)
Definition rotated_node (d : bool) (s r : addr) (ns nr : node) (x : addr)
    (n : node) : node :=
  if decide (x = s) then
    set_balance_factor 0
      (set_parent (Some r) (set_child d (child (negb d) nr) n))
  else if decide (x = r) then
    set_balance_factor 0
      (set_child (negb d) (Some s) (set_parent (parent ns) n))
  else if decide (child (negb d) nr = Some x) then set_parent (Some s) n
  else if decide (parent ns = Some x) then reparent s r n
  else n.

(** Ranks after a rotation: the promoted node takes the place of [s]. *)
Definition rotated_rank (rank : addr → Z) (s r : addr) (x : addr) : Z :=
  if decide (x = r) then 2 * rank s
  else if decide (x = s) then 2 * rank s + 1
  else 2 * rank x.


(** Assignments that leave links and identifiers alone. *)
Definition keeps_links (f : node → node) : Prop :=
  ∀ n, node_id (f n) = node_id n ∧ left_child (f n) = left_child n ∧
       right_child (f n) = right_child n ∧ parent (f n) = parent n.

(** The driver is entered at [self] after the subtree on side [dir] grew:
    that child exists, [self] itself is still within [-1, 1], and if the
    update is about to push it to [2] or [-2] the child leans by one. *)
Definition hot (h : heap) (self : addr) (dir : bool) : Prop :=
  ∃ s c cn,
    h !! self = Some s ∧ child dir s = Some c ∧ h !! c = Some cn ∧
    -1 ≤ balance_factor s ≤ 1 ∧
    (balance_factor s = (if dir then 1 else -1) →
     balance_factor cn = 1 ∨ balance_factor cn = -1).

(** Ranks after attaching [node] under [self]. *)
Definition attached_rank (rank : addr → Z) (self node : addr) (x : addr) : Z :=
  if decide (x = node) then rank self + 1 else rank x.

(** Identifiers handed out so far lie below the counter. *)
Definition ids_below (k : Z) (h : heap) : Prop :=
  ∀ a n, h !! a = Some n → node_id n < k.

(** ** Oracles for tests

    In-order traversal by child links, the starts and ends met on the way,
    the largest [interval_end] of a subtree, and subtree heights. *)
Fixpoint inorder (fuel : nat) (h : heap) (o : option addr) : list addr :=
  match fuel with
  | O => []
  | S fuel' =>
      match o with
      | None => []
      | Some a =>
          match h !! a with
          | None => []
          | Some n =>
              inorder fuel' h (left_child n) ++ a :: inorder fuel' h (right_child n)
          end
      end
  end.

Definition starts_of (h : heap) (l : list addr) : list Z :=
  omap (λ a, interval_start <$> h !! a) l.

Definition ends_of (h : heap) (l : list addr) : list Z :=
  omap (λ a, interval_end <$> h !! a) l.

Definition subtree_max_end (fuel : nat) (h : heap) (a : addr) : option Z :=
  match ends_of h (inorder fuel h (Some a)) with
  | [] => None
  | e :: es => Some (foldr Z.max e es)
  end.

Fixpoint height (fuel : nat) (h : heap) (o : option addr) : Z :=
  match fuel with
  | O => 0
  | S fuel' =>
      match o with
      | None => 0
      | Some a =>
          match h !! a with
          | None => 0
          | Some n =>
              1 + Z.max (height fuel' h (left_child n))
                        (height fuel' h (right_child n))
          end
      end
  end.

(** A class state in which the attribute read by [__init__] is bound. *)
Definition counting_from_zero : class_state := Class 0 (Some 0).


(** ** Two sentences of the specification, stated on the model *)

(** Creation fails exactly when [start > end]. *)
Definition creation_rejects_malformed : Prop :=
  ∀ cls (h : heap) start end_ l r p sq rf tg,
    start > end_ ↔ ∃ e, __init__ cls h start end_ l r p sq rf tg = Raise e.

(** Deletion always fails with an error. *)
Definition deletion_is_rejected : Prop :=
  ∀ (h : heap) self node, ∃ e, delete h self node = Raise e.

(** A store to run single insertions on: [(1,1)] with right child [(2,2)],
    and a fresh node [(3,3)]. *)
Definition two_linked_one_new : heap :=
  [Node 0 None (Some 1%nat) None PyNone 1 1 1 PyNone PyNone 2;
   Node 1 None None (Some 0%nat) PyNone 0 2 2 PyNone PyNone 2;
   Node 2 None None None PyNone 0 3 3 PyNone PyNone 3].

(** ** How objects change

    Relations between an object before and after a call. *)

(** [evolves R h h']: the two stores hold the same objects, and each object
    of [h] is related by [R] to what it has become in [h']. *)
Definition evolves (R : node → node → Prop) (h h' : heap) : Prop :=
  ∀ a, option_Forall2 R (h !! a) (h' !! a).

(** An attribute is left alone. *)
Definition keeps_max_position (n n' : node) : Prop :=
  max_position n' = max_position n.

(** [max_position] may only go up; the interval end stays. *)
Definition raises_max_position (n n' : node) : Prop :=
  max_position n ≤ max_position n' ∧ interval_end n' = interval_end n.

(** The store the loop leaves after [(1,1)], [(2,2)], [(3,3)]. *)
Definition three_ascending : heap :=
  [Node 0 None None (Some 1%nat) PyNone 0 1 1 PyNone PyNone 2;
   Node 1 (Some 0%nat) (Some 2%nat) None PyNone 0 2 2 PyNone PyNone 3;
   Node 2 None None (Some 1%nat) PyNone 0 3 3 PyNone PyNone 3].

(** How many objects of the store rank strictly below [a]. *)
Definition ranked_below (rank : nat → Z) (h : list node) (a : nat) : nat :=
  length (filter (λ x, rank x < rank a) (seq 0 (length h))).

(** [t] is the one object of the store without a parent. *)
Definition only_top (h : list node) (t : nat) : Prop :=
  ∀ a n, h !! a = Some n → (parent n = None ↔ a = t).

(** As [only_top], with the fresh node [node] still unattached. *)
Definition top_and_new (h : list node) (t node : nat) : Prop :=
  ∀ a n, h !! a = Some n → (parent n = None ↔ a = t ∨ a = node).




(** ** Search order

    [below h a x]: the node [x] is [a] or lies in a subtree of [a]. *)
Inductive below (h : list node) : nat → nat → Prop :=
  | below_self a : below h a a
  | below_child d a n c x :
      h !! a = Some n → child d n = Some c → below h c x → below h a x.

(** Every start in the left subtree of a node is at most the start of the
    node, and every start in its right subtree at least that. *)
Definition search_ordered (h : list node) : Prop :=
  ∀ d a n c x nx,
    h !! a = Some n → child d n = Some c → below h c x → h !! x = Some nx →
    if d then interval_start n ≤ interval_start nx
    else interval_start nx ≤ interval_start n.

(** Ghost bounds on the starts a subtree may hold; [None] is no bound. *)
Definition above (lo : option Z) (k : Z) : Prop :=
  match lo with Some l => l ≤ k | None => True end.

Definition under (k : Z) (hi : option Z) : Prop :=
  match hi with Some u => k ≤ u | None => True end.

(** The bounds of the child on side [d] of a node with bounds [b] and
    start [k]. *)
Definition child_bounds (d : bool) (b : option Z * option Z) (k : Z)
    : option Z * option Z :=
  if d then (Some k, b.2) else (b.1, Some k).

Record bounded (bnd : nat → option Z * option Z) (h : list node) : Prop :=
  Bounded {
  bounded_own : ∀ a n,
    h !! a = Some n →
    above (bnd a).1 (interval_start n) ∧ under (interval_start n) (bnd a).2;
  bounded_child : ∀ d a n c,
    h !! a = Some n → child d n = Some c →
    bnd c = child_bounds d (bnd a) (interval_start n);
  bounded_top : ∀ a n,
    h !! a = Some n → parent n = None → bnd a = (None, None)
}.

(** Stores built by insertions that all go through the node on top: the
    caller passes the new node to [insert] of a node without parent, as
    [tree.get_root().insert(node)] does. *)
Inductive grown : class_state → list node → Prop :=
  | grown_first cls start end_ sequence_ ref_seq_id_ targ_seq_id_ cls' h' a :
      __init__ cls [] start end_ None None None
               sequence_ ref_seq_id_ targ_seq_id_ = Ok (cls', h', a) →
      grown cls' h'
  | grown_insert cls h top tn start end_ sequence_ ref_seq_id_ targ_seq_id_
                 cls1 h1 node fuel h2 v :
      grown cls h →
      h !! top = Some tn → parent tn = None →
      __init__ cls h start end_ None None None
               sequence_ ref_seq_id_ targ_seq_id_ = Ok (cls1, h1, node) →
      insert fuel h1 top node = Ok (h2, v) →
      grown cls1 h2.

(** Bounds after a rotation at [s] that promotes [r]. *)
Definition rotated_bounds (bnd : nat → option Z * option Z) (d : bool)
    (s r : nat) (nr : node) (x : nat) : option Z * option Z :=
  if decide (x = r) then bnd s
  else if decide (x = s) then
    child_bounds (negb d) (bnd s) (interval_start nr)
  else bnd x.


(** [max_position] and the interval end are both left alone. *)
Definition keeps_positions (n n' : node) : Prop :=
  max_position n' = max_position n ∧ interval_end n' = interval_end n.

(** Every [max_position] in the store is the end of some stored interval. *)
Definition ends_known (h : list node) : Prop :=
  ∀ a n, h !! a = Some n →
         ∃ b nb, h !! b = Some nb ∧ max_position n = interval_end nb.

(** [double_rotation true] is the right-left double rotation, whose second
    step is the single left rotation; [double_rotation false] is its
    mirror image. *)
Definition double_rotation (d : bool) :=
  if d then _double_right_left_rotation else _double_left_right_rotation.

(** The store the loop leaves after [(2,2)], [(1,1)], [(4,4)], [(3,3)]. *)
Definition four_zigzag : list node :=
  [Node 0 (Some 1%nat) (Some 2%nat) None PyNone 1 2 2 PyNone PyNone 4;
   Node 1 None None (Some 0%nat) PyNone 0 1 1 PyNone PyNone 1;
   Node 2 (Some 3%nat) None (Some 0%nat) PyNone (-1) 4 4 PyNone PyNone 4;
   Node 3 None None (Some 2%nat) PyNone 0 3 3 PyNone PyNone 3].

(** ** Printing

    An f-string formats an integer in decimal.  CPython refuses to convert
    an integer of more than 4300 decimal digits to a string (the default
    limit, see [sys.set_int_max_str_digits]): the conversion raises
    [ValueError].  The sign does not count as a digit. *)
Definition int_max_str_digits : nat := 4300.

Definition format_int (z : Z) : result string :=
  if decide (String.length (pretty (Z.abs z)) ≤ int_max_str_digits)%nat
  then Ok (pretty z)
  else Raise ValueError.

(** [f"({self.interval_start}, {self.interval_end})"]. *)
Definition __repr__ (n : node) : result string :=
  a ← format_int (interval_start n);
  b ← format_int (interval_end n);
  Ok ("(" +:+ a +:+ ", " +:+ b +:+ ")").

(** The character [c] does not occur in [s]. *)
Fixpoint free_of (c : ascii) (s : string) : Prop :=
  match s with
  | EmptyString => True
  | String a s' => a ≠ c ∧ free_of c s'
  end.

(** * Properties *)

(** ** The result monad *)

Lemma bind_Ok {A B} (m : result A) (f : A → result B) (b : B) :
  m ≫= f = Ok b → ∃ a, m = Ok a ∧ f a = Ok b.
Proof. destruct m; simpl; intros; try discriminate; eauto. Qed.

Lemma get_Ok (h : heap) a n : get h a = Ok n ↔ h !! a = Some n.
Proof. unfold get. destruct (h !! a); split; congruence. Qed.

Lemma deref_Ok o a : deref o = Ok a ↔ o = Some a.
Proof. destruct o; simpl; split; congruence. Qed.

(** Peel one monadic step off a hypothesis [_ = Ok _]. *)
Ltac ok_step :=
  match goal with
  | H : Ok _ = Ok _ |- _ => injection H as H; try subst
  | H : (_, _) = (_, _) |- _ => injection H as H; try subst
  | H : get _ _ = Ok _ |- _ => apply get_Ok in H
  | H : deref _ = Ok _ |- _ => apply deref_Ok in H
  | H : mret _ = Ok _ |- _ => unfold mret, result_ret in H
  | H : _ ≫= _ = Ok _ |- _ =>
      let H1 := fresh "E" in
      apply bind_Ok in H as (? & H1 & H)
  | H : (let '(_, _) := ?p in _) = Ok _ |- _ => destruct p
  | H : Raise _ = Ok _ |- _ => discriminate H
  | H : OutOfFuel = Ok _ |- _ => discriminate H
  | H : Dangling = Ok _ |- _ => discriminate H
  end.

Lemma lookup_store (h : heap) a f x :
  store a f h !! x = if decide (a = x) then f <$> h !! a else h !! x.
Proof. unfold store. apply list_lookup_alter. Qed.

Lemma lookup_store_eq (h : heap) a f : store a f h !! a = f <$> h !! a.
Proof. rewrite lookup_store. by case_decide. Qed.

Lemma lookup_store_ne (h : heap) a f x : a ≠ x → store a f h !! x = h !! x.
Proof. intros. rewrite lookup_store. by case_decide. Qed.

(** ** Frame: the entries are never written *)

Lemma same_entries_refl h : same_entries h h.
Proof. by intros a. Qed.

Lemma same_entries_trans h1 h2 h3 :
  same_entries h1 h2 → same_entries h2 h3 → same_entries h1 h3.
Proof. intros H12 H23 a. by rewrite H23, H12. Qed.

Lemma same_entries_store h a f :
  keeps_entry f → same_entries h (store a f h).
Proof.
  intros Hf x. rewrite lookup_store. case_decide; [subst|done].
  destruct (h !! x); simpl; [|done]. by rewrite Hf.
Qed.

Lemma keeps_set_left_child v : keeps_entry (set_left_child v).
Proof. by intros []. Qed.
Lemma keeps_set_right_child v : keeps_entry (set_right_child v).
Proof. by intros []. Qed.
Lemma keeps_set_parent v : keeps_entry (set_parent v).
Proof. by intros []. Qed.
Lemma keeps_set_balance_factor v : keeps_entry (set_balance_factor v).
Proof. by intros []. Qed.
Lemma keeps_set_max_position v : keeps_entry (set_max_position v).
Proof. by intros []. Qed.

Create HintDb frame discriminated.
#[export] Hint Resolve same_entries_refl same_entries_store
  keeps_set_left_child keeps_set_right_child keeps_set_parent
  keeps_set_balance_factor keeps_set_max_position : frame.

(** Chains of stores are closed by transitivity, outermost store first. *)
Ltac frame_stores :=
  repeat first
    [ apply same_entries_refl
    | eapply same_entries_trans; [|apply same_entries_store; auto with frame] ].

Lemma update_root_entries fuel h self h' v :
  update_root fuel h self = Ok (h', v) → same_entries h h'.
Proof.
  unfold update_root. intros H. repeat ok_step.
  destruct (parent _); repeat ok_step; frame_stores.
Qed.

Lemma _single_left_rotation_entries fuel h self h' v :
  _single_left_rotation fuel h self = Ok (h', v) → same_entries h h'.
Proof.
  unfold _single_left_rotation. intros H. repeat ok_step.
  apply update_root_entries in H.
  eapply same_entries_trans; [|exact H]. clear H.
  repeat match goal with
  | H : match ?o with _ => _ end = Ok _ |- _ => destruct o; repeat ok_step
  | H : (if ?c then _ else _) = Ok _ |- _ => destruct c; repeat ok_step
  | |- context [match ?o with _ => _ end] => destruct o
  end; frame_stores.
Qed.

Lemma _single_right_rotation_entries fuel h self h' v :
  _single_right_rotation fuel h self = Ok (h', v) → same_entries h h'.
Proof.
  unfold _single_right_rotation. intros H. repeat ok_step.
  apply update_root_entries in H.
  eapply same_entries_trans; [|exact H]. clear H.
  repeat match goal with
  | H : match ?o with _ => _ end = Ok _ |- _ => destruct o; repeat ok_step
  | H : (if ?c then _ else _) = Ok _ |- _ => destruct c; repeat ok_step
  | |- context [match ?o with _ => _ end] => destruct o
  end; frame_stores.
Qed.

Lemma _double_right_left_rotation_entries fuel h self h' v :
  _double_right_left_rotation fuel h self = Ok (h', v) → same_entries h h'.
Proof.
  unfold _double_right_left_rotation. intros H.
  apply bind_Ok in H as (s & _ & H).
  apply bind_Ok in H as (r & _ & H).
  apply bind_Ok in H as ([h1 v1] & H1 & H).
  apply bind_Ok in H as ([h2 v2] & H2 & H). injection H as <- <-.
  eapply same_entries_trans.
  - eapply _single_right_rotation_entries, H1.
  - eapply _single_left_rotation_entries, H2.
Qed.

Lemma _double_left_right_rotation_entries fuel h self h' v :
  _double_left_right_rotation fuel h self = Ok (h', v) → same_entries h h'.
Proof.
  unfold _double_left_right_rotation. intros H.
  apply bind_Ok in H as (s & _ & H).
  apply bind_Ok in H as (l & _ & H).
  apply bind_Ok in H as ([h1 v1] & H1 & H).
  apply bind_Ok in H as ([h2 v2] & H2 & H). injection H as <- <-.
  eapply same_entries_trans.
  - eapply _single_left_rotation_entries, H1.
  - eapply _single_right_rotation_entries, H2.
Qed.

(** One guarded branch of the driver: the guard, then a rotation whose
    result is returned. *)
Ltac driver_branch H lem :=
  let c := fresh "c" in
  apply bind_Ok in H as (c & _ & H);
  destruct c;
  [ let h2 := fresh "h" in let v2 := fresh "v" in
    let Hrot := fresh "Hrot" in
    apply bind_Ok in H as ([h2 v2] & Hrot & H); injection H as <- <-;
    eapply lem, Hrot
  | ].

Lemma _update_balance_factors_and_rebalance_entries fuel :
  ∀ h self dir h' v,
    _update_balance_factors_and_rebalance fuel h self dir = Ok (h', v) →
    same_entries h h'.
Proof.
  induction fuel as [|fuel IH]; intros h self dir h' v H; [done|].
  simpl in H.
  apply bind_Ok in H as (s & _ & H).
  eapply same_entries_trans;
    [apply same_entries_store, keeps_set_balance_factor|].
  apply bind_Ok in H as (s1 & _ & H).
  destruct (balance_factor s1 =? 0).
  { injection H as <- <-. apply same_entries_refl. }
  destruct (Z.abs (balance_factor s1) >? 2); [done|].
  driver_branch H _single_left_rotation_entries.
  driver_branch H _double_right_left_rotation_entries.
  driver_branch H _single_right_rotation_entries.
  driver_branch H _double_left_right_rotation_entries.
  destruct (parent s1) as [p|].
  - apply bind_Ok in H as (pn & _ & H).
    apply bind_Ok in H as (r & _ & H).
    apply bind_Ok in H as (rn & _ & H).
    eapply IH, H.
  - injection H as <- <-. apply same_entries_refl.
Qed.

Lemma insert_entries fuel :
  ∀ h self node h' v,
    insert fuel h self node = Ok (h', v) → same_entries h h'.
Proof.
  induction fuel as [|fuel IH]; intros h self node h' v H; [done|].
  simpl in H. repeat ok_step.
  match goal with
  | H1 : _ = Ok ?h1, H2 : _ !! self = Some _ |- _ =>
      assert (same_entries h h1) as Hmid
  end.
  { repeat match goal with
    | H : (if ?c then _ else _) = Ok _ |- _ => destruct c; repeat ok_step
    | H : (match ?o with _ => _ end) = Ok _ |- _ => destruct o; repeat ok_step
    end; eauto using same_entries_refl.
    all: eapply same_entries_trans;
      [|eapply _update_balance_factors_and_rebalance_entries; eassumption].
    all: frame_stores. }
  eapply same_entries_trans; [exact Hmid|].
  repeat match goal with
  | H : (match ?o with _ => _ end) = Ok _ |- _ => destruct o; repeat ok_step
  end; frame_stores.
Qed.

(** C10. An insertion that completes leaves the identifier, the interval
    bounds and the payload attributes ([sequence], [ref_seq_id],
    [targ_seq_id]) of every object in the store as they were, the new node
    included; what it writes are balance factors, [max_position] and the
    links. *)
Theorem insert_preserves_entries fuel h self node h' v :
  insert fuel h self node = Ok (h', v) →
  ∀ a, entry <$> h' !! a = entry <$> h !! a.
Proof. intros H. by apply insert_entries in H. Qed.

(** ** Placement *)

Lemma insert_unfold fuel h self node :
  insert (S fuel) h self node =
    s ← get h self;
    n ← get h node;
    h ← (if interval_start s >=? interval_start n then
           match left_child s with
           | Some c => '(h, _) ← insert fuel h c node; Ok h
           | None =>
               '(h, _) ← _update_balance_factors_and_rebalance fuel
                           (attach h self false node) self false;
               Ok h
           end
         else
           match right_child s with
           | Some c => '(h, _) ← insert fuel h c node; Ok h
           | None =>
               '(h, _) ← _update_balance_factors_and_rebalance fuel
                           (attach h self true node) self true;
               Ok h
           end);
    h ← refresh_max_position h self;
    Ok (h, None).
Proof.
  simpl. destruct (get h self) as [s| | |]; simpl; try done.
  destruct (get h node) as [n| | |]; simpl; try done.
  assert ((interval_start s >=? interval_start n) = false →
          (interval_start s <? interval_start n) = true) as Hlt by lia.
  destruct (interval_start s >=? interval_start n); [|rewrite Hlt by done].
  all: match goal with
       | |- ?m ≫= _ = ?m' ≫= _ =>
           change m' with m; destruct m as [h1| | |]; simpl; try done
       end.
  all: unfold refresh_max_position.
  all: destruct (get h1 self) as [s1| | |]; simpl; try done.
  all: destruct (left_child s1), (right_child s1); simpl; try done.
  all: repeat match goal with
       | |- context [get ?h ?a] => destruct (get h a); simpl; try done
       end.
Qed.

Lemma find_slot_descent fuel :
  ∀ h cur key path p at_right,
    find_slot fuel h cur key = Ok (path, p, at_right) →
    descent h key cur path p at_right.
Proof.
  induction fuel as [|fuel IH]; intros h cur key path p at_right H; [done|].
  simpl in H. apply bind_Ok in H as (c & Hc & H). apply get_Ok in Hc.
  destruct (interval_start c >=? key) eqn:Hcmp.
  - destruct (left_child c) as [l|] eqn:Hl.
    + apply bind_Ok in H as ([[path' p'] r'] & Hrec & H).
      injection H as <- <- <-.
      eapply descent_left; eauto; lia.
    + injection H as <- <- <-.
      eapply descent_left_free; eauto; lia.
  - destruct (right_child c) as [r|] eqn:Hr.
    + apply bind_Ok in H as ([[path' p'] r'] & Hrec & H).
      injection H as <- <- <-.
      eapply descent_right; eauto; lia.
    + injection H as <- <- <-.
      eapply descent_right_free; eauto; lia.
Qed.

Lemma descent_slot h key cur path p at_right :
  descent h key cur path p at_right →
  ∃ pn, h !! p = Some pn ∧
        (if at_right then right_child pn else left_child pn) = None.
Proof. induction 1; eauto. Qed.

Lemma attach_links (h : heap) p at_right node pn n :
  h !! p = Some pn → h !! node = Some n →
  ∃ pn' n',
    attach h p at_right node !! p = Some pn' ∧
    (if at_right then right_child pn' else left_child pn') = Some node ∧
    attach h p at_right node !! node = Some n' ∧
    parent n' = Some p.
Proof.
  intros Hp Hn. unfold attach. rewrite !lookup_store.
  repeat case_decide; simplify_eq; rewrite ?lookup_store, ?Hn, ?Hp;
    repeat case_decide; simplify_eq; rewrite ?Hn, ?Hp; simpl;
    destruct at_right; eauto 10.
Qed.

Lemma insert_is_placement fuel :
  ∀ h self node n,
    h !! node = Some n →
    insert fuel h self node = insert_by_placement fuel h self node.
Proof.
  induction fuel as [|fuel IH]; intros h self node n Hn.
  { unfold insert_by_placement, get. by rewrite Hn. }
  rewrite insert_unfold. unfold insert_by_placement.
  assert (get h node = Ok n) as Hg by by apply get_Ok.
  rewrite Hg. simpl.
  destruct (get h self) as [s| | |]; simpl; try done.
  destruct (interval_start s >=? interval_start n).
  - destruct (left_child s) as [c|].
    + rewrite (IH _ _ _ _ Hn). unfold insert_by_placement. rewrite Hg. simpl.
      destruct (find_slot fuel h c (interval_start n)) as [[[path p] r]| | |];
        simpl; try done.
      destruct (_update_balance_factors_and_rebalance _ _ _ _) as [[h1 v1]| | |];
        simpl; try done.
      destruct (unwind (path ++ [p]) h1); simpl; try done.
    + simpl. rewrite Nat.sub_0_r.
      destruct (_update_balance_factors_and_rebalance _ _ _ _) as [[h1 v1]| | |];
        simpl; try done.
  - destruct (right_child s) as [c|].
    + rewrite (IH _ _ _ _ Hn). unfold insert_by_placement. rewrite Hg. simpl.
      destruct (find_slot fuel h c (interval_start n)) as [[[path p] r]| | |];
        simpl; try done.
      destruct (_update_balance_factors_and_rebalance _ _ _ _) as [[h1 v1]| | |];
        simpl; try done.
      destruct (unwind (path ++ [p]) h1); simpl; try done.
    + simpl. rewrite Nat.sub_0_r.
      destruct (_update_balance_factors_and_rebalance _ _ _ _) as [[h1 v1]| | |];
        simpl; try done.
Qed.

(** C6. Insertion places the new node by ordered descent: from the node it
    is called on it compares [interval_start], goes left when the visited
    start is at least the new start (ties go left) and right otherwise, and
    attaches the new node in the first missing child slot, with the parent
    link of the new node set to the node it hangs under; the driver and the
    pending [max_position] updates run on the store so obtained. *)
Theorem insert_places_by_descent fuel h self node n :
  h !! node = Some n →
  insert fuel h self node = insert_by_placement fuel h self node ∧
  ∀ path p at_right,
    find_slot fuel h self (interval_start n) = Ok (path, p, at_right) →
    descent h (interval_start n) self path p at_right ∧
    ∃ pn pn' n',
      h !! p = Some pn ∧
      (if at_right then right_child pn else left_child pn) = None ∧
      attach h p at_right node !! p = Some pn' ∧
      (if at_right then right_child pn' else left_child pn') = Some node ∧
      attach h p at_right node !! node = Some n' ∧
      parent n' = Some p.
Proof.
  intros Hn. split; [by eapply insert_is_placement|].
  intros path p at_right Hs. apply find_slot_descent in Hs.
  split; [done|].
  destruct (descent_slot _ _ _ _ _ _ Hs) as (pn & Hp & Hfree).
  destruct (attach_links h p at_right node pn n Hp Hn)
    as (pn' & n' & ? & ? & ? & ?).
  eauto 10.
Qed.

(** ** Rotations keep the links well formed *)

Lemma get_root_top fuel : ∀ (h : list node) a root,
  get_root fuel h a = Ok root → ∃ n, h !! root = Some n ∧ parent n = None.
Proof.
  induction fuel as [|fuel IH]; intros h a root H; [done|].
  simpl in H. apply bind_Ok in H as (c & Hc & H). apply get_Ok in Hc.
  destruct (parent c) eqn:Hp; [eauto|]. injection H as <-. eauto.
Qed.

Lemma update_root_noop fuel (h : list node) a h' v :
  update_root fuel h a = Ok (h', v) → h' = h.
Proof.
  unfold update_root. intros H.
  apply bind_Ok in H as (root & Hroot & H).
  apply get_root_top in Hroot as (n & Hn & Hp).
  unfold get in H. rewrite Hn in H. simpl in H. rewrite Hp in H. congruence.
Qed.

Lemma lookup_store_opt (h : list node) o f x :
  store_opt o f h !! x = if decide (o = Some x) then f <$> h !! x else h !! x.
Proof.
  destruct o as [a|]; simpl; [|done].
  rewrite lookup_store. repeat case_decide; congruence.
Qed.

Lemma store_reparent (h : list node) p pn s r :
  h !! p = Some pn →
  store p (reparent s r) h =
    if decide (Some s = left_child pn)
    then store p (set_left_child (Some r)) h
    else store p (set_right_child (Some r)) h.
Proof.
  intros Hp. apply list_eq. intros i.
  case_decide; rewrite !lookup_store; case_decide; subst; try done;
    rewrite Hp; simpl; unfold reparent; by case_decide.
Qed.

Lemma linked_child rank (h : list node) d a n c :
  linked rank h → h !! a = Some n → child d n = Some c →
  ∃ cn, h !! c = Some cn ∧ parent cn = Some a ∧ rank a < rank c.
Proof.
  intros Hl Ha Hc. destruct d; simpl in Hc.
  - eapply linked_right; eauto.
  - eapply linked_left; eauto.
Qed.

Lemma linked_child_sides rank (h : list node) d a n c :
  linked rank h → h !! a = Some n → child d n = Some c →
  child (negb d) n ≠ Some c.
Proof.
  intros Hl Ha Hc Hc'. destruct d; simpl in *.
  - by eapply linked_sides.
  - by eapply linked_sides.
Qed.

Lemma linked_parent_child rank (h : list node) a n p :
  linked rank h → h !! a = Some n → parent n = Some p →
  ∃ pn, h !! p = Some pn ∧ rank p < rank a ∧
        (left_child pn = Some a ∨ right_child pn = Some a).
Proof.
  intros Hl Ha Hp.
  destruct (linked_parent _ _ Hl _ _ _ Ha Hp) as (pn & Hpn & Hc).
  exists pn. split; [done|]. split; [|done]. destruct Hc as [Hc|Hc].
  - by destruct (linked_left _ _ Hl _ _ _ Hpn Hc) as (? & _ & _ & ?).
  - by destruct (linked_right _ _ Hl _ _ _ Hpn Hc) as (? & _ & _ & ?).
Qed.

Ltac look_goal :=
  repeat first
    [ rewrite lookup_store_eq
    | rewrite lookup_store_ne by congruence ].
Ltac look H :=
  repeat first
    [ rewrite lookup_store_eq in H
    | rewrite lookup_store_ne in H by congruence ].

Lemma rotate_store rank d fuel (h : list node) s h' v :
  linked rank h → rotate d fuel h s = Ok (h', v) →
  ∃ ns r nr, h !! s = Some ns ∧ child d ns = Some r ∧ h !! r = Some nr ∧
     h' = rotated d h s r ns nr.
Proof.
  intros Hl H.
  assert (∃ ns r nr, h !! s = Some ns ∧ child d ns = Some r ∧ h !! r = Some nr ∧
    (nr0 ← get (store s (set_child d (child (negb d) nr)) h) r;
     let h := store_opt (child (negb d) nr0) (set_parent (Some s))
                (store s (set_child d (child (negb d) nr)) h) in
     s0 ← get h s;
     let h := store r (set_parent (parent s0)) h in
     s1 ← get h s;
     h ← match parent s1 with
         | None => Ok h
         | Some p =>
             pn ← get h p;
             if decide (Some s = left_child pn)
             then Ok (store p (set_left_child (Some r)) h)
             else Ok (store p (set_right_child (Some r)) h)
         end;
     update_root fuel
       (store r (set_balance_factor 0)
         (store s (set_balance_factor 0)
           (store s (set_parent (Some r))
             (store r (set_child (negb d) (Some s)) h)))) r) = Ok (h', v))
    as (ns & r & nr & Hs & Hr & Hnr & E).
  { destruct d; simpl in *.
    all: unfold _single_left_rotation, _single_right_rotation in H.
    all: apply bind_Ok in H as (ns & Hs & H); apply get_Ok in Hs.
    all: apply bind_Ok in H as (r & Hr & H); apply deref_Ok in Hr.
    all: apply bind_Ok in H as (nr & Hnr & H); apply get_Ok in Hnr.
    all: exists ns, r, nr; do 3 (split; [done|]); exact H. }
  clear H. exists ns, r, nr. do 3 (split; [done|]).
  destruct (linked_child _ _ d _ _ _ Hl Hs Hr) as (nr' & Hnr' & Hpr & Hrk).
  assert (nr' = nr) as -> by congruence. clear Hnr'.
  assert (s ≠ r) as Hsr by (intros ->; lia).
  assert (∀ t, child (negb d) nr = Some t → t ≠ s ∧ t ≠ r) as Ht.
  { intros t Ht.
    destruct (linked_child _ _ (negb d) _ _ _ Hl Hnr Ht) as (? & _ & _ & ?).
    split; intros ->; lia. }
  assert (∀ p, parent ns = Some p →
            p ≠ s ∧ p ≠ r ∧ child (negb d) nr ≠ Some p) as Hp.
  { intros p Hp.
    destruct (linked_parent_child _ _ _ _ _ Hl Hs Hp) as (pn & Hpn & Hps & _).
    split_and!; [intros ->; lia..|].
    intros Hq.
    destruct (linked_child _ _ (negb d) _ _ _ Hl Hnr Hq) as (? & _ & _ & ?).
    lia. }
  apply bind_Ok in E as (nr1 & E0 & E). apply get_Ok in E0. look E0.
  assert (nr1 = nr) as -> by congruence. clear E0.
  set (ot := child (negb d) nr) in *.
  assert (store_opt ot (set_parent (Some s))
            (store s (set_child d ot) h) !! s
          = Some (set_child d ot ns)) as Hs1.
  { rewrite lookup_store_opt. case_decide as Hq.
    - by destruct (Ht _ Hq).
    - look_goal. by rewrite Hs. }
  cbv zeta in E.
  apply bind_Ok in E as (s1 & E1 & E). apply get_Ok in E1.
  rewrite Hs1 in E1. injection E1 as <-.
  assert (parent (set_child d ot ns) = parent ns) as Hpar by by destruct d.
  rewrite Hpar in E.
  apply bind_Ok in E as (s2 & E2 & E). apply get_Ok in E2.
  look E2. rewrite Hs1 in E2. injection E2 as <-. rewrite Hpar in E.
  apply bind_Ok in E as (h4 & E3 & E).
  apply update_root_noop in E as ->.
  unfold rotated. fold ot.
  destruct (parent ns) as [p|] eqn:Hpp; simpl.
  - destruct (Hp p eq_refl) as (Hps & Hpr' & Hpt).
    apply bind_Ok in E3 as (pn & Epn & E3). apply get_Ok in Epn.
    erewrite store_reparent by exact Epn.
    case_decide; by injection E3 as <-.
  - by injection E3 as <-.
Qed.

Ltac look_step :=
  first
    [ rewrite lookup_store_eq
    | rewrite lookup_store_ne by congruence
    | rewrite lookup_store_opt, decide_True by congruence
    | rewrite lookup_store_opt, decide_False by congruence ].

Lemma rotated_lookup d (h : list node) s r ns nr x :
  s ≠ r →
  child (negb d) nr ≠ Some s → child (negb d) nr ≠ Some r →
  parent ns ≠ Some s → parent ns ≠ Some r →
  (∀ p, parent ns = Some p → child (negb d) nr ≠ Some p) →
  rotated d h s r ns nr !! x = rotated_node d s r ns nr x <$> h !! x.
Proof.
  intros Hsr Hts Htr Hps Hpr Hpt. unfold rotated, rotated_node.
  destruct (decide (x = s)) as [->|Hxs].
  { repeat look_step. by destruct (h !! s). }
  destruct (decide (x = r)) as [->|Hxr].
  { repeat look_step. by destruct (h !! r). }
  destruct (decide (child (negb d) nr = Some x)) as [Hxt|Hxt].
  { assert (parent ns ≠ Some x) by (intros Hq; by apply (Hpt _ Hq)).
    by repeat look_step. }
  destruct (decide (parent ns = Some x)) as [Hxp|Hxp].
  { repeat look_step. by destruct (h !! x). }
  repeat look_step. by destruct (h !! x).
Qed.

Lemma parent_rotated_node d s r ns nr x n :
  parent (rotated_node d s r ns nr x n) =
    if decide (x = s) then Some r
    else if decide (x = r) then parent ns
    else if decide (child (negb d) nr = Some x) then Some s
    else parent n.
Proof.
  unfold rotated_node, reparent. repeat case_decide; by destruct d.
Qed.

Lemma child_rotated_node e d s r ns nr x n :
  child e (rotated_node d s r ns nr x n) =
    if decide (x = s) then
      (if decide (e = d) then child (negb d) nr else child e n)
    else if decide (x = r) then
      (if decide (e = d) then child e n else Some s)
    else if decide (child (negb d) nr = Some x) then child e n
    else if decide (parent ns = Some x) then child e (reparent s r n)
    else child e n.
Proof.
  unfold rotated_node. repeat case_decide; try done;
    destruct e, d; done || congruence.
Qed.

Lemma child_reparent e s r n :
  child e (reparent s r n) =
    if decide (left_child n = Some s) then
      (if e then right_child n else Some r)
    else
      (if e then Some r else left_child n).
Proof. unfold reparent. repeat case_decide; destruct e; done || congruence. Qed.

Section rotation.
Context (rank : nat → Z) (h : list node) (d : bool) (s r : nat) (ns nr : node).
Context (Hl : linked rank h) (Hs : h !! s = Some ns)
        (Hr : child d ns = Some r) (Hnr : h !! r = Some nr).


Lemma rotation_new_root : parent nr = Some s ∧ rank s < rank r.
Proof.
  destruct (linked_child _ _ d _ _ _ Hl Hs Hr) as (nr' & Hnr' & Hpr & Hrk).
  by assert (nr' = nr) as -> by congruence.
Qed.

Lemma rotation_inner t :
  child (negb d) nr = Some t →
  ∃ nt, h !! t = Some nt ∧ parent nt = Some r ∧ rank r < rank t.
Proof. intros Ht. by apply (linked_child _ _ (negb d) _ _ _ Hl Hnr Ht). Qed.

Lemma rotation_above p :
  parent ns = Some p →
  ∃ pn, h !! p = Some pn ∧ rank p < rank s ∧
        (left_child pn = Some s ∨ right_child pn = Some s).
Proof. intros Hp. by apply (linked_parent_child _ _ _ _ _ Hl Hs Hp). Qed.

Lemma rotation_lookup x : rotated d h s r ns nr !! x = rotated_node d s r ns nr x <$> h !! x.
Proof.
  destruct rotation_new_root as [Hpr Hrk].
  apply rotated_lookup.
  - intros ->; lia.
  - intros Hq. destruct (rotation_inner _ Hq) as (? & ? & ? & ?). lia.
  - intros Hq. destruct (rotation_inner _ Hq) as (? & ? & ? & ?). lia.
  - intros Hq. destruct (rotation_above _ Hq) as (? & ? & ? & ?). lia.
  - intros Hq. destruct (rotation_above _ Hq) as (? & ? & ? & ?). lia.
  - intros p Hq Hq'. destruct (rotation_above _ Hq) as (? & ? & ? & ?).
    destruct (rotation_inner _ Hq') as (? & ? & ? & ?). lia.
Qed.

(** Bring in what the old invariant says about the nodes at hand. *)
Ltac old_facts :=
  repeat match goal with
  | Hq : child (negb d) nr = Some ?t |- _ =>
      destruct (rotation_inner t Hq) as (? & ? & ? & ?); revert Hq
  | Hq : parent ns = Some ?p |- _ =>
      destruct (rotation_above p Hq) as (? & ? & ? & ?); revert Hq
  end; intros.

Ltac finish :=
  repeat case_decide; old_facts;
  first
    [ done | lia | congruence
    | split; [congruence|lia]
    | exfalso; simplify_eq; lia
    | simplify_eq; split; [congruence|lia]
    | exfalso; by destruct d ].

Lemma rotation_linked_child e a n' c :
  rotated d h s r ns nr !! a = Some n' → child e n' = Some c →
  ∃ cn, rotated d h s r ns nr !! c = Some cn ∧ parent cn = Some a ∧ rotated_rank rank s r a < rotated_rank rank s r c.
Proof.
  destruct rotation_new_root as [Hpr Hrk].
  intros Ha Hc. rewrite rotation_lookup in Ha.
  destruct (h !! a) as [n|] eqn:Hna; [|done]. injection Ha as <-.
  rewrite child_rotated_node in Hc. rewrite rotation_lookup.
  unfold rotated_rank.
  destruct (decide (a = s)) as [->|Has].
  { assert (n = ns) as -> by congruence.
    destruct (decide (e = d)) as [->|Hed].
    - destruct (rotation_inner _ Hc) as (nt & Hnt & Hpt & Hrt).
      rewrite Hnt. eexists. split; [done|]. rewrite parent_rotated_node.
      finish.
    - destruct (linked_child _ _ e _ _ _ Hl Hs Hc) as (cn & Hcn & Hpc & Hrc).
      assert (c ≠ r).
      { intros ->. apply (linked_child_sides _ _ d _ _ _ Hl Hs Hr).
        by destruct e, d. }
      rewrite Hcn. eexists. split; [done|]. rewrite parent_rotated_node.
      finish. }
  destruct (decide (a = r)) as [->|Har].
  { assert (n = nr) as -> by congruence.
    destruct (decide (e = d)) as [->|Hed].
    - destruct (linked_child _ _ d _ _ _ Hl Hnr Hc) as (cn & Hcn & Hpc & Hrc).
      assert (child (negb d) nr ≠ Some c)
        by by apply (linked_child_sides _ _ d _ _ _ Hl Hnr).
      rewrite Hcn. eexists. split; [done|]. rewrite parent_rotated_node.
      finish.
    - injection Hc as <-. rewrite Hs. eexists. split; [done|].
      rewrite parent_rotated_node. finish. }
  destruct (decide (child (negb d) nr = Some a)) as [Hat|Hat].
  { destruct (linked_child _ _ e _ _ _ Hl Hna Hc) as (cn & Hcn & Hpc & Hrc).
    rewrite Hcn. eexists. split; [done|]. rewrite parent_rotated_node.
    finish. }
  destruct (decide (parent ns = Some a)) as [Hap|Hap].
  { rewrite child_reparent in Hc.
    destruct (rotation_above _ Hap) as (pn & Hpn & Hrp & Hch).
    assert (pn = n) as -> by congruence.
    assert (child e n = Some c ∧ c ≠ s ∨ c = r) as [[Hc' Hcs]| ->].
    { repeat case_decide; destruct e; simplify_eq; eauto.
      - left. split; [done|]. intros ->.
        by apply (linked_sides _ _ Hl _ _ _ Hna H).
      - left. split; [done|]. intros ->. done. }
    - destruct (linked_child _ _ e _ _ _ Hl Hna Hc') as (cn & Hcn & Hpc & Hrc).
      rewrite Hcn. eexists. split; [done|]. rewrite parent_rotated_node.
      finish.
    - rewrite Hnr. eexists. split; [done|]. rewrite parent_rotated_node.
      finish. }
  destruct (linked_child _ _ e _ _ _ Hl Hna Hc) as (cn & Hcn & Hpc & Hrc).
  rewrite Hcn. eexists. split; [done|]. rewrite parent_rotated_node.
  finish.
Qed.

Lemma rotation_linked_parent a n' q :
  rotated d h s r ns nr !! a = Some n' → parent n' = Some q →
  ∃ qn, rotated d h s r ns nr !! q = Some qn ∧
        (left_child qn = Some a ∨ right_child qn = Some a).
Proof.
  destruct rotation_new_root as [Hpr Hrk].
  assert (∀ q qn, h !! q = Some qn →
            (∃ e, child e (rotated_node d s r ns nr q qn) = Some a) →
            ∃ qn', rotated d h s r ns nr !! q = Some qn' ∧
              (left_child qn' = Some a ∨ right_child qn' = Some a)) as Hgoal.
  { intros q' qn Hq' [e He]. rewrite rotation_lookup, Hq'.
    eexists. split; [done|]. destruct e; eauto. }
  intros Ha Hq. rewrite rotation_lookup in Ha.
  destruct (h !! a) as [n|] eqn:Hna; [|done]. injection Ha as <-.
  rewrite parent_rotated_node in Hq.
  destruct (decide (a = s)) as [->|Has].
  { injection Hq as <-. apply (Hgoal _ _ Hnr). exists (negb d).
    rewrite child_rotated_node. finish. }
  destruct (decide (a = r)) as [->|Har].
  { destruct (rotation_above _ Hq) as (pn & Hpn & Hrp & Hch).
    apply (Hgoal _ _ Hpn).
    exists (bool_decide (left_child pn ≠ Some s)).
    rewrite child_rotated_node, child_reparent.
    case_bool_decide; finish. }
  destruct (decide (child (negb d) nr = Some a)) as [Hat|Hat].
  { injection Hq as <-. apply (Hgoal _ _ Hs). exists d.
    rewrite child_rotated_node. finish. }
  destruct (linked_parent _ _ Hl _ _ _ Hna Hq) as (qn & Hqn & Hch).
  assert (∃ e, child e qn = Some a) as [e He].
  { destruct Hch; [by exists false|by exists true]. }
  apply (Hgoal _ _ Hqn). exists e.
  rewrite child_rotated_node, child_reparent.
  destruct (decide (q = s)) as [->|Hqs].
  { assert (qn = ns) as -> by congruence.
    case_decide; [|done]. subst e. congruence. }
  destruct (decide (q = r)) as [->|Hqr].
  { assert (qn = nr) as -> by congruence.
    case_decide; [done|]. destruct e, d; simpl in *; congruence. }
  case_decide; [done|].
  case_decide as Hqp; [|done].
  destruct (rotation_above _ Hqp) as (pn & Hpn & _ & Hsp).
  assert (pn = qn) as -> by congruence.
  case_decide; destruct e; simpl in *; destruct Hsp; congruence.
Qed.

Lemma rotation_linked_sides a n' c :
  rotated d h s r ns nr !! a = Some n' → left_child n' = Some c → right_child n' ≠ Some c.
Proof.
  destruct rotation_new_root as [Hpr Hrk].
  intros Ha. rewrite rotation_lookup in Ha.
  destruct (h !! a) as [n|] eqn:Hna; [|done]. injection Ha as <-.
  change (child false (rotated_node d s r ns nr a n) = Some c →
          child true (rotated_node d s r ns nr a n) = Some c → False).
  rewrite !child_rotated_node, !child_reparent.
  pose proof (λ c, linked_sides _ _ Hl a n c Hna) as Hold. simpl.
  destruct (decide (a = s)) as [->|Has].
  { assert (n = ns) as -> by congruence. intros Hlc Hrc.
    assert (∃ e, child (negb d) nr = Some c ∧ child e ns = Some c)
      as (e & Ht & Hc).
    { destruct d; simpl in *; [exists false|exists true]; done. }
    destruct (rotation_inner _ Ht) as (nt & Hnt & Hpt & _).
    destruct (linked_child _ _ e _ _ _ Hl Hs Hc) as (cn & Hcn & Hpc & _).
    assert (s = r) as Heq by congruence. rewrite Heq in Hrk. lia. }
  destruct (decide (a = r)) as [->|Har].
  { assert (n = nr) as -> by congruence. intros Hlc Hrc.
    assert (child d nr = Some s) as Hc.
    { destruct d; simpl in *; congruence. }
    destruct (linked_child _ _ d _ _ _ Hl Hnr Hc) as (? & _ & _ & ?). lia. }
  case_decide; [intros; by eapply Hold|].
  case_decide as Hap; [|intros; by eapply Hold].
  destruct (rotation_above _ Hap) as (pn & Hpn & Hrp & Hsp).
  assert (pn = n) as -> by congruence. intros Hlc Hrc.
  assert (∃ e, child e n = Some r) as [e He].
  { case_decide; [exists true|exists false]; simpl; congruence. }
  destruct (linked_child _ _ e _ _ _ Hl Hna He) as (nr' & Hnr' & Hpr' & _).
  assert (s = a) as Heq by congruence. rewrite Heq in Hrp. lia.
Qed.

Lemma rotation_linked :
  linked (rotated_rank rank s r) (rotated d h s r ns nr).
Proof.
  split.
  - intros a n c. apply (rotation_linked_child false).
  - intros a n c. apply (rotation_linked_child true).
  - apply rotation_linked_parent.
  - apply rotation_linked_sides.
Qed.
End rotation.

(** ** Balance factors after the driver *)

Lemma reset_or_kept_rotated_node d s r ns nr x n :
  reset_or_kept n (rotated_node d s r ns nr x n).
Proof.
  unfold rotated_node, reparent, reset_or_kept.
  repeat case_decide; destruct d; simpl;
    (split; [done|]; first [by left | by right]).
Qed.

Lemma rotate_effect rank d fuel (h : list node) s h' v :
  linked rank h → rotate d fuel h s = Ok (h', v) →
  (∃ rank', linked rank' h') ∧ rotation_effect s h h'.
Proof.
  intros Hl H.
  destruct (rotate_store _ _ _ _ _ _ _ Hl H)
    as (ns & r & nr & Hs & Hr & Hnr & ->).
  split; [eexists; by eapply rotation_linked|].
  split.
  - intros x n' Hx. rewrite (rotation_lookup rank) in Hx by done.
    destruct (h !! x) as [n|]; [|done]. injection Hx as <-.
    eexists. split; [done|]. apply reset_or_kept_rotated_node.
  - intros n' Hx. rewrite (rotation_lookup rank) in Hx by done.
    rewrite Hs in Hx. injection Hx as <-.
    unfold rotated_node. by rewrite decide_True.
Qed.

Lemma reset_or_kept_trans n1 n2 n3 :
  reset_or_kept n1 n2 → reset_or_kept n2 n3 → reset_or_kept n1 n3.
Proof.
  unfold reset_or_kept. intros [Hid1 H1] [Hid2 H2].
  split; [congruence|]. destruct H2 as [?|(?&?&?)]; [by left|].
  destruct H1 as [?|(?&?&?)]; [left; congruence|].
  right. split_and!; [congruence|auto..].
Qed.

Lemma settled_reset_or_kept n n' :
  settled n → reset_or_kept n n' → settled n'.
Proof.
  unfold settled, reset_or_kept. intros (? & ? & ?) [_ [Hz|(Hb & ? & ?)]].
  - rewrite Hz. lia.
  - rewrite Hb. auto.
Qed.

Lemma keeps_links_balance_factor v : keeps_links (set_balance_factor v).
Proof. by intros []. Qed.
Lemma keeps_links_max_position v : keeps_links (set_max_position v).
Proof. by intros []. Qed.

Lemma lookup_store_Some (h : list node) a f x n' :
  store a f h !! x = Some n' →
  ∃ n, h !! x = Some n ∧ n' = if decide (a = x) then f n else n.
Proof.
  rewrite lookup_store. case_decide; subst.
  - destruct (h !! x) as [n|]; [|done]. intros [= <-]. eauto.
  - eauto.
Qed.

Lemma lookup_store_keep (h : list node) a f x n :
  h !! x = Some n →
  store a f h !! x = Some (if decide (a = x) then f n else n).
Proof. intros Hx. rewrite lookup_store. case_decide; subst; by rewrite ?Hx. Qed.

Lemma linked_store rank (h : list node) a f :
  keeps_links f → linked rank h → linked rank (store a f h).
Proof.
  intros Hf Hl.
  assert (∀ x n', store a f h !! x = Some n' →
            ∃ n, h !! x = Some n ∧ left_child n' = left_child n ∧
                 right_child n' = right_child n ∧ parent n' = parent n) as Hinv.
  { intros x n' Hx. apply lookup_store_Some in Hx as (n & Hn & ->).
    exists n. split; [done|]. case_decide; [|done]. by destruct (Hf n) as (?&?&?&?). }
  assert (∀ x n, h !! x = Some n →
            ∃ n', store a f h !! x = Some n' ∧ left_child n' = left_child n ∧
                 right_child n' = right_child n ∧ parent n' = parent n) as Hfwd.
  { intros x n Hx. rewrite (lookup_store_keep _ _ _ _ _ Hx).
    eexists. split; [done|]. case_decide; [|done]. by destruct (Hf n) as (?&?&?&?). }
  split.
  - intros x n' c Hx Hc. destruct (Hinv _ _ Hx) as (n & Hn & Hl' & _).
    rewrite Hl' in Hc.
    destruct (linked_left _ _ Hl _ _ _ Hn Hc) as (cn & Hcn & ? & ?).
    destruct (Hfwd _ _ Hcn) as (cn' & ? & _ & _ & ?).
    exists cn'. split_and!; [done|congruence|done].
  - intros x n' c Hx Hc. destruct (Hinv _ _ Hx) as (n & Hn & _ & Hr' & _).
    rewrite Hr' in Hc.
    destruct (linked_right _ _ Hl _ _ _ Hn Hc) as (cn & Hcn & ? & ?).
    destruct (Hfwd _ _ Hcn) as (cn' & ? & _ & _ & ?).
    exists cn'. split_and!; [done|congruence|done].
  - intros x n' p Hx Hp. destruct (Hinv _ _ Hx) as (n & Hn & _ & _ & Hp').
    rewrite Hp' in Hp.
    destruct (linked_parent _ _ Hl _ _ _ Hn Hp) as (pn & Hpn & Hc).
    destruct (Hfwd _ _ Hpn) as (pn' & ? & Hl' & Hr' & _).
    exists pn'. split; [done|]. rewrite Hl', Hr'. done.
  - intros x n' c Hx Hc. destruct (Hinv _ _ Hx) as (n & Hn & Hl' & Hr' & _).
    rewrite Hl' in Hc. rewrite Hr'. by eapply linked_sides.
Qed.

Lemma unique_ids_store (h : list node) a f :
  keeps_links f → unique_ids h → unique_ids (store a f h).
Proof.
  intros Hf Hu x y nx ny Hx Hy Hid.
  apply lookup_store_Some in Hx as (nx0 & Hx & ->).
  apply lookup_store_Some in Hy as (ny0 & Hy & ->).
  apply (Hu x y nx0 ny0 Hx Hy).
  repeat case_decide; rewrite ?(proj1 (Hf _)) in Hid; done.
Qed.

Lemma unique_ids_effect s (h h' : list node) :
  rotation_effect s h h' → unique_ids h → unique_ids h'.
Proof.
  intros [He _] Hu x y nx ny Hx Hy Hid.
  destruct (He _ _ Hx) as (nx0 & Hx0 & Hidx & _).
  destruct (He _ _ Hy) as (ny0 & Hy0 & Hidy & _).
  apply (Hu x y nx0 ny0 Hx0 Hy0). congruence.
Qed.

Lemma settled_zero n : balance_factor n = 0 → settled n.
Proof. unfold settled. intros ->. lia. Qed.

(** After a rotation at [self], every object is settled if every object
    other than [self] was. *)
Lemma settled_effect self (h h' : list node) :
  rotation_effect self h h' →
  (∀ a n, h !! a = Some n → a ≠ self → settled n) →
  ∀ a n, h' !! a = Some n → settled n.
Proof.
  intros [He Hz] Hset a n' Ha.
  destruct (decide (a = self)) as [->|Hne].
  - by apply settled_zero, Hz.
  - destruct (He _ _ Ha) as (n & Hn & Hrk).
    eapply settled_reset_or_kept; eauto.
Qed.

Lemma rotation_effect_trans c self (h1 h2 h3 : list node) :
  rotation_effect c h1 h2 → rotation_effect self h2 h3 →
  rotation_effect self h1 h3.
Proof.
  intros [He1 _] [He2 Hz]. split; [|done].
  intros x n3 Hx. destruct (He2 _ _ Hx) as (n2 & Hn2 & H23).
  destruct (He1 _ _ Hn2) as (n1 & Hn1 & H12).
  exists n1. split; [done|]. by eapply reset_or_kept_trans.
Qed.


Lemma child_balance_factor_Ok (h : list node) c cn :
  h !! c = Some cn → child_balance_factor h (Some c) = Ok (balance_factor cn).
Proof. intros Hc. unfold child_balance_factor, get. simpl. by rewrite Hc. Qed.

Lemma driver_forest fuel :
  ∀ rank (h : list node) self dir h' v,
    linked rank h → unique_ids h →
    (∀ a n, h !! a = Some n → a ≠ self → settled n) →
    hot h self dir →
    _update_balance_factors_and_rebalance fuel h self dir = Ok (h', v) →
    forest h'.
Proof.
  induction fuel as [|fuel IH];
    intros rank h self dir h' v Hl Hu Hset Hhot H; [done|].
  destruct Hhot as (s & c & cn & Hs & Hc & Hcn & Hb & Hhc).
  simpl in H.
  apply bind_Ok in H as (s' & Hs' & H). apply get_Ok in Hs'.
  assert (s' = s) as -> by congruence. clear Hs'.
  set (b := if dir then balance_factor s + 1 else balance_factor s - 1) in *.
  set (h1 := store self (set_balance_factor b) h) in *.
  assert (h1 !! self = Some (set_balance_factor b s)) as Hs1.
  { unfold h1. by rewrite lookup_store_eq, Hs. }
  assert (linked rank h1) as Hl1
    by (apply linked_store; [apply keeps_links_balance_factor|done]).
  assert (unique_ids h1) as Hu1
    by (apply unique_ids_store; [apply keeps_links_balance_factor|done]).
  assert (c ≠ self) as Hcs.
  { destruct (linked_child _ _ _ _ _ _ Hl Hs Hc) as (? & _ & _ & ?).
    intros ->. lia. }
  assert (h1 !! c = Some cn) as Hcn1.
  { unfold h1. by rewrite lookup_store_ne. }
  assert (∀ a n, h1 !! a = Some n → a ≠ self → settled n) as Hset1.
  { intros a n Ha Hne. unfold h1 in Ha. rewrite lookup_store_ne in Ha by done.
    eauto. }
  apply bind_Ok in H as (s' & Hs' & H). apply get_Ok in Hs'.
  assert (s' = set_balance_factor b s) as -> by congruence. clear Hs'.
  simpl in H.
  destruct (b =? 0) eqn:Hb0.
  { (* the subtree did not grow *)
    injection H as <- <-. split; [eauto|]. split; [done|].
    intros a n Ha. destruct (decide (a = self)) as [->|]; [|eauto].
    rewrite Hs1 in Ha. injection Ha as <-. apply settled_zero. simpl. lia. }
  destruct (Z.abs b >? 2) eqn:Hb2; [done|].
  assert (child dir (set_balance_factor b s) = Some c) as Hc1 by by destruct dir.
  destruct (decide (b = 2)) as [Hb2'|Hnb2].
  { assert (dir = true) as -> by (destruct dir; [done|subst b; lia]).
    simpl in Hc1. rewrite Hb2', Hc1 in H. simpl in H.
    rewrite (child_balance_factor_Ok _ _ _ Hcn1) in H. simpl in H.
    assert (balance_factor cn = 1 ∨ balance_factor cn = -1) as [Hcb|Hcb]
      by (apply Hhc; subst b; lia).
    - rewrite Hcb in H. simpl in H.
      apply bind_Ok in H as ([h2 v2] & Hrot & H). injection H as <- <-.
      destruct (rotate_effect rank true _ _ _ _ _ Hl1 Hrot) as [Hl2 He].
      split; [done|]. split; [by eapply unique_ids_effect|].
      by eapply settled_effect.
    - rewrite Hcb in H. simpl in H.
      apply bind_Ok in H as ([h3 v3] & Hrot & H). injection H as <- <-.
      unfold _double_right_left_rotation in Hrot.
      apply bind_Ok in Hrot as (s' & Hs' & Hrot). apply get_Ok in Hs'.
      assert (s' = set_balance_factor b s) as -> by congruence. clear Hs'.
      simpl in Hrot. rewrite Hc1 in Hrot. simpl in Hrot.
      apply bind_Ok in Hrot as ([h2 v2] & Hrot1 & Hrot).
      apply bind_Ok in Hrot as ([h3' v3'] & Hrot2 & Hrot).
      injection Hrot as <- <-.
      destruct (rotate_effect rank false _ _ _ _ _ Hl1 Hrot1) as [[rank2 Hl2] He1].
      destruct (rotate_effect rank2 true _ _ _ _ _ Hl2 Hrot2) as [Hl3 He2].
      pose proof (rotation_effect_trans _ _ _ _ _ He1 He2) as He.
      split; [done|]. split; [by eapply unique_ids_effect|].
      by eapply settled_effect. }
  assert ((b =? 2) = false) as Hb2f by lia. rewrite Hb2f in H. simpl in H.
  destruct (decide (b = -2)) as [Hbm2|Hnbm2].
  { assert (dir = false) as -> by (destruct dir; [subst b; lia|done]).
    simpl in Hc1. rewrite Hbm2, Hc1 in H. simpl in H.
    rewrite (child_balance_factor_Ok _ _ _ Hcn1) in H. simpl in H.
    assert (balance_factor cn = 1 ∨ balance_factor cn = -1) as [Hcb|Hcb]
      by (apply Hhc; subst b; lia).
    - rewrite Hcb in H. simpl in H.
      apply bind_Ok in H as ([h3 v3] & Hrot & H). injection H as <- <-.
      unfold _double_left_right_rotation in Hrot.
      apply bind_Ok in Hrot as (s' & Hs' & Hrot). apply get_Ok in Hs'.
      assert (s' = set_balance_factor b s) as -> by congruence. clear Hs'.
      simpl in Hrot. rewrite Hc1 in Hrot. simpl in Hrot.
      apply bind_Ok in Hrot as ([h2 v2] & Hrot1 & Hrot).
      apply bind_Ok in Hrot as ([h3' v3'] & Hrot2 & Hrot).
      injection Hrot as <- <-.
      destruct (rotate_effect rank true _ _ _ _ _ Hl1 Hrot1) as [[rank2 Hl2] He1].
      destruct (rotate_effect rank2 false _ _ _ _ _ Hl2 Hrot2) as [Hl3 He2].
      pose proof (rotation_effect_trans _ _ _ _ _ He1 He2) as He.
      split; [done|]. split; [by eapply unique_ids_effect|].
      by eapply settled_effect.
    - rewrite Hcb in H. simpl in H.
      apply bind_Ok in H as ([h2 v2] & Hrot & H). injection H as <- <-.
      destruct (rotate_effect rank false _ _ _ _ _ Hl1 Hrot) as [Hl2 He].
      split; [done|]. split; [by eapply unique_ids_effect|].
      by eapply settled_effect. }
  assert ((b =? -2) = false) as Hbm2f by lia. rewrite Hbm2f in H. simpl in H.
  assert (settled (set_balance_factor b s)) as Hss.
  { unfold settled. simpl. destruct dir; simpl in Hc; rewrite Hc; subst b;
      split_and!; intros; try done; lia. }
  destruct (parent s) as [p|] eqn:Hp.
  2:{ injection H as <- <-. split; [eauto|]. split; [done|].
      intros a n Ha. destruct (decide (a = self)) as [->|]; [|eauto].
      rewrite Hs1 in Ha. by injection Ha as <-. }
  apply bind_Ok in H as (pn & Hpn & H). apply get_Ok in Hpn.
  apply bind_Ok in H as (r & Hr & H). apply deref_Ok in Hr.
  apply bind_Ok in H as (rn & Hrn & H). apply get_Ok in Hrn.
  assert (parent (set_balance_factor b s) = Some p) as Hp1 by done.
  destruct (linked_parent_child _ _ _ _ _ Hl1 Hs1 Hp1) as (pn' & Hpn' & Hrp & Hch).
  assert (pn' = pn) as -> by congruence. clear Hpn'.
  assert (p ≠ self) as Hps by (intros ->; lia).
  eapply (IH rank h1 p); [done|done| | |exact H].
  - intros a n Ha Hap. destruct (decide (a = self)) as [->|]; [|eauto].
    rewrite Hs1 in Ha. by injection Ha as <-.
  - exists pn, self, (set_balance_factor b s).
    split; [done|]. split; [|split; [done|]].
    + destruct (node_id rn =? node_id s) eqn:Hid.
      * assert (r = self) as ->; [|done].
        apply (Hu1 _ _ _ _ Hrn Hs1). simpl. lia.
      * assert (r ≠ self).
        { intros ->. assert (rn = set_balance_factor b s) as -> by congruence.
          simpl in Hid. lia. }
        simpl. destruct Hch; congruence.
    + split; [by apply (Hset1 _ _ Hpn)|]. simpl. intros _. lia.
Qed.

(** ** Insertion keeps the store a forest with settled balance factors *)

Lemma forest_store (h : list node) a f :
  keeps_links f → (∀ n, balance_factor (f n) = balance_factor n) →
  forest h → forest (store a f h).
Proof.
  intros Hf Hb ([rank Hl] & Hu & Hset).
  split; [exists rank; by apply linked_store|].
  split; [by apply unique_ids_store|].
  intros x n' Hx. apply lookup_store_Some in Hx as (n & Hn & ->).
  pose proof (Hset _ _ Hn) as Hsn. case_decide; [|done].
  destruct (Hf n) as (_ & Hl' & Hr' & _).
  unfold settled. by rewrite Hb, Hl', Hr'.
Qed.

Lemma refresh_max_position_forest (h : list node) self h' :
  forest h → refresh_max_position h self = Ok h' → forest h'.
Proof.
  intros Hf H. unfold refresh_max_position in H.
  apply bind_Ok in H as (s & _ & H).
  destruct (left_child s), (right_child s);
    repeat (apply bind_Ok in H as (? & _ & H));
    injection H as <-; try done;
    (apply forest_store; [apply keeps_links_max_position|done|done]).
Qed.

Lemma attach_lookup (h : list node) self dir node x :
  self ≠ node →
  attach h self dir node !! x =
    (λ n, if decide (x = self) then set_child dir (Some node) n
          else if decide (x = node) then set_parent (Some self) n
          else n) <$> h !! x.
Proof.
  intros Hne. unfold attach. rewrite !lookup_store.
  repeat case_decide; simplify_eq; destruct dir; simpl;
    repeat match goal with
    | |- context [h !! ?a] => destruct (h !! a); simpl
    end; done.
Qed.

Lemma attach_linked rank (h : list node) self dir node s nn :
  linked rank h → h !! self = Some s → h !! node = Some nn →
  detached nn → self ≠ node → child dir s = None →
  linked (attached_rank rank self node) (attach h self dir node).
Proof.
  intros Hl Hs Hn (Hnl & Hnr & Hnp & _) Hne Hfree.
  assert (∀ e a n, h !! a = Some n → child e n ≠ Some node) as Hnochild.
  { intros e a n Ha Hc.
    destruct (linked_child _ _ _ _ _ _ Hl Ha Hc) as (nn' & ? & ? & _).
    congruence. }
  assert (∀ e a n' c, attach h self dir node !! a = Some n' →
            child e n' = Some c →
            ∃ cn, attach h self dir node !! c = Some cn ∧ parent cn = Some a ∧
                  attached_rank rank self node a < attached_rank rank self node c)
    as Hchild.
  { intros e a n' c Ha Hc. rewrite attach_lookup in Ha by done.
    destruct (h !! a) as [n|] eqn:Hna; [|done]. injection Ha as <-.
    rewrite attach_lookup by done. unfold attached_rank.
    destruct (decide (a = self)) as [->|Has].
    - assert (n = s) as -> by congruence.
      destruct (decide (e = dir)) as [->|Hed].
      + assert (c = node) as -> by (destruct dir; simpl in *; congruence).
        rewrite Hn. eexists. split; [done|].
        repeat case_decide; try done. simpl. split; [done|lia].
      + assert (child e s = Some c) as Hc' by (destruct e, dir; done).
        destruct (linked_child _ _ _ _ _ _ Hl Hs Hc') as (cn & Hcn & Hpc & Hrc).
        assert (c ≠ node) by (intros ->; exact (Hnochild _ _ _ Hs Hc')).
        rewrite Hcn. eexists. split; [done|].
        repeat case_decide; simplify_eq; try lia. simpl. done.
    - destruct (decide (a = node)) as [->|Han].
      + assert (n = nn) as -> by congruence.
        destruct e; simpl in Hc; congruence.
      + destruct (linked_child _ _ _ _ _ _ Hl Hna Hc) as (cn & Hcn & Hpc & Hrc).
        assert (c ≠ node) by (intros ->; exact (Hnochild _ _ _ Hna Hc)).
        rewrite Hcn. eexists. split; [done|].
        repeat case_decide; simplify_eq; try lia.
        * split; [by destruct dir|lia].
        * done. }
  split.
  - intros a n c. apply (Hchild false).
  - intros a n c. apply (Hchild true).
  - intros a n' q Ha Hq. rewrite attach_lookup in Ha by done.
    destruct (h !! a) as [n|] eqn:Hna; [|done]. injection Ha as <-.
    rewrite attach_lookup by done.
    destruct (decide (a = self)) as [->|Has].
    + assert (n = s) as -> by congruence.
      assert (parent s = Some q) as Hq' by by destruct dir.
      destruct (linked_parent_child _ _ _ _ _ Hl Hs Hq') as (qn & Hqn & Hrq & Hch).
      rewrite Hqn. eexists. split; [done|].
      rewrite decide_False by (intros ->; lia).
      rewrite decide_False; [done|].
      intros ->. destruct Hch; congruence.
    + destruct (decide (a = node)) as [->|Han].
      * assert (n = nn) as -> by congruence. injection Hq as <-.
        rewrite Hs. eexists. split; [done|].
        rewrite decide_True by done. destruct dir; simpl; auto.
      * destruct (linked_parent _ _ Hl _ _ _ Hna Hq) as (qn & Hqn & Hch).
        rewrite Hqn. eexists. split; [done|].
        destruct (decide (q = self)) as [->|Hqs].
        { assert (qn = s) as -> by congruence.
          destruct dir; simpl in *; destruct Hch; auto; congruence. }
        rewrite decide_False; [done|].
        intros ->. destruct Hch; congruence.
  - intros a n' c Ha Hlc Hrc. rewrite attach_lookup in Ha by done.
    destruct (h !! a) as [n|] eqn:Hna; [|done]. injection Ha as <-.
    destruct (decide (a = self)) as [->|Has].
    + assert (n = s) as -> by congruence.
      destruct dir; simpl in *.
      * apply (Hnochild false _ _ Hs). simpl. congruence.
      * apply (Hnochild true _ _ Hs). simpl. congruence.
    + destruct (decide (a = node)) as [->|Han].
      * assert (n = nn) as -> by congruence. simpl in *. congruence.
      * by eapply (linked_sides _ _ Hl).
Qed.

Lemma balance_factor_set_child d v n :
  balance_factor (set_child d v n) = balance_factor n.
Proof. by destruct d. Qed.

Lemma unique_ids_store_id (h : list node) a f :
  (∀ n, node_id (f n) = node_id n) → unique_ids h → unique_ids (store a f h).
Proof.
  intros Hf Hu x y nx ny Hx Hy Hid.
  apply lookup_store_Some in Hx as (nx0 & Hx & ->).
  apply lookup_store_Some in Hy as (ny0 & Hy & ->).
  apply (Hu x y nx0 ny0 Hx Hy).
  repeat case_decide; rewrite ?Hf in Hid; done.
Qed.

Lemma unique_ids_attach (h : list node) self dir node :
  unique_ids h → unique_ids (attach h self dir node).
Proof.
  intros Hu. unfold attach.
  apply unique_ids_store_id; [by destruct dir|].
  by apply unique_ids_store_id.
Qed.

Lemma insert_forest fuel :
  ∀ (h : list node) self node nn h' v,
    forest h → h !! node = Some nn → detached nn → self ≠ node →
    insert fuel h self node = Ok (h', v) → forest h'.
Proof.
  induction fuel as [|fuel IH];
    intros h self node nn h' v Hf Hn Hdet Hne H; [done|].
  rewrite insert_unfold in H.
  apply bind_Ok in H as (s & Hs & H). apply get_Ok in Hs.
  apply bind_Ok in H as (n & Hn' & H). apply get_Ok in Hn'.
  assert (n = nn) as -> by congruence. clear Hn'.
  apply bind_Ok in H as (h1 & Hbody & H).
  apply bind_Ok in H as (h2 & Hmax & H). injection H as <- <-.
  eapply refresh_max_position_forest; [|exact Hmax]. clear Hmax.
  destruct Hf as ([rank Hl] & Hu & Hset).
  assert (∀ dir c, child dir s = Some c →
            ∀ hx vx, insert fuel h c node = Ok (hx, vx) → forest hx) as Hrec.
  { intros dir c Hc hx vx Hrec.
    eapply (IH h c node nn); [by split; eauto|done|done| |exact Hrec].
    destruct (linked_child _ _ _ _ _ _ Hl Hs Hc) as (cn & Hcn & Hpc & _).
    intros ->. destruct Hdet as (_ & _ & Hp & _). congruence. }
  assert (∀ dir, child dir s = None →
            ∀ hx vx,
              _update_balance_factors_and_rebalance fuel
                (attach h self dir node) self dir = Ok (hx, vx) →
              forest hx) as Hdrv.
  { intros dir Hfree hx vx Hd.
    eapply (driver_forest fuel (attached_rank rank self node));
      [by eapply attach_linked|by apply unique_ids_attach| | |exact Hd].
    - intros a n' Ha Has. rewrite attach_lookup in Ha by done.
      destruct (h !! a) as [n|] eqn:Hna; [|done]. injection Ha as <-.
      rewrite decide_False by done. case_decide; [|eauto]. subst a.
      assert (n = nn) as -> by congruence.
      apply settled_zero. by destruct Hdet as (_ & _ & _ & ?).
    - exists (set_child dir (Some node) s), node, (set_parent (Some self) nn).
      pose proof (Hset _ _ Hs) as (Hb & Hbr & Hbl).
      rewrite balance_factor_set_child.
      split_and!.
      + rewrite attach_lookup, Hs by done. simpl. by rewrite decide_True.
      + by destruct dir.
      + rewrite attach_lookup, Hn by done. simpl.
        rewrite decide_False, decide_True by done. done.
      + lia.
      + lia.
      + intros Hq. exfalso.
        destruct dir; simpl in *; [specialize (Hbr Hfree)|specialize (Hbl Hfree)];
          rewrite ?balance_factor_set_child in Hq; lia. }
  destruct (interval_start s >=? interval_start nn).
  - destruct (left_child s) as [c|] eqn:Hc.
    + apply bind_Ok in Hbody as ([hx vx] & Hr & Hbody). injection Hbody as <-.
      by eapply (Hrec false).
    + apply bind_Ok in Hbody as ([hx vx] & Hr & Hbody). injection Hbody as <-.
      by eapply (Hdrv false).
  - destruct (right_child s) as [c|] eqn:Hc.
    + apply bind_Ok in Hbody as ([hx vx] & Hr & Hbody). injection Hbody as <-.
      by eapply (Hrec true).
    + apply bind_Ok in Hbody as ([hx vx] & Hr & Hbody). injection Hbody as <-.
      by eapply (Hdrv true).
Qed.

(** ** Stores built by insertions *)

Lemma __init___Ok cls (h : list node) start end_ l r p sq rf tg cls' h' a :
  __init__ cls h start end_ l r p sq rf tg = Ok (cls', h', a) →
  ∃ k, _id_counter cls = Some k ∧ _id_counter cls' = Some (k + 1) ∧
       id_counter cls' = id_counter cls ∧
       h' = h ++ [Node k l r p sq 0 start end_ rf tg end_] ∧
       a = length h.
Proof.
  unfold __init__. destruct (_id_counter cls) as [k|]; [|done].
  intros [= <- <- <-]. eauto 10.
Qed.

Lemma lookup_snoc_Some (h : list node) (x : node) a n :
  (h ++ [x]) !! a = Some n →
  h !! a = Some n ∨ a = length h ∧ n = x.
Proof.
  intros [?|[Hle Hx]]%lookup_app_Some; [by left|right].
  destruct (a - length h)%nat as [|j] eqn:Hj; simpl in Hx; [|done].
  split; [lia|congruence].
Qed.

Lemma forest_alloc (h : list node) k start end_ sq rf tg :
  forest h → ids_below k h →
  forest (h ++ [Node k None None None sq 0 start end_ rf tg end_]).
Proof.
  intros ([rank Hl] & Hu & Hset) Hids.
  set (x := Node k None None None sq 0 start end_ rf tg end_).
  split; [exists rank; split|split].
  - intros a n c [Ha|[_ ->]]%lookup_snoc_Some Hc; [|done].
    destruct (linked_left _ _ Hl _ _ _ Ha Hc) as (cn & Hcn & ? & ?).
    exists cn. split; [by apply lookup_app_l_Some|done].
  - intros a n c [Ha|[_ ->]]%lookup_snoc_Some Hc; [|done].
    destruct (linked_right _ _ Hl _ _ _ Ha Hc) as (cn & Hcn & ? & ?).
    exists cn. split; [by apply lookup_app_l_Some|done].
  - intros a n p [Ha|[_ ->]]%lookup_snoc_Some Hp; [|done].
    destruct (linked_parent _ _ Hl _ _ _ Ha Hp) as (pn & Hpn & ?).
    exists pn. split; [by apply lookup_app_l_Some|done].
  - intros a n c [Ha|[_ ->]]%lookup_snoc_Some Hc; [|done].
    by eapply linked_sides.
  - intros a b na nb [Ha|[-> ->]]%lookup_snoc_Some
      [Hb|[-> ->]]%lookup_snoc_Some Hid; [by eapply Hu| | |done].
    + apply Hids in Ha. simpl in Hid. lia.
    + apply Hids in Hb. simpl in Hid. lia.
  - intros a n [Ha|[_ ->]]%lookup_snoc_Some; [eauto|].
    by apply settled_zero.
Qed.

Lemma same_entries_node_id (h h' : list node) a n' :
  same_entries h h' → h' !! a = Some n' →
  ∃ n, h !! a = Some n ∧ node_id n' = node_id n.
Proof.
  intros He Ha. specialize (He a). rewrite Ha in He.
  destruct (h !! a) as [n|]; [|done]. exists n. split; [done|].
  simpl in He. unfold entry in He. congruence.
Qed.

Lemma reachable_forest cls (h : list node) :
  reachable cls h →
  forest h ∧ ∃ k, _id_counter cls = Some k ∧ ids_below k h.
Proof.
  induction 1 as [cls start end_ sq rf tg cls' h' a Hinit
                 |cls h self start end_ sq rf tg cls1 h1 node fuel h2 v
                    Hreach [Hf (k & Hk & Hids)] Hself Hinit Hins].
  - apply __init___Ok in Hinit as (k & Hk & Hk' & _ & -> & ->).
    assert (forest []) as Hempty.
    { split; [exists (λ _, 0); split; intros ? ? ?; by rewrite lookup_nil|].
      split; intros ? ?; intros; by rewrite lookup_nil in *. }
    split.
    + apply (forest_alloc [] k); [done|]. intros ? ?. by rewrite lookup_nil.
    + exists (k + 1). split; [done|].
      intros a n [Ha|[_ ->]]%lookup_snoc_Some; [by rewrite lookup_nil in Ha|].
      simpl. lia.
  - apply __init___Ok in Hinit as (k' & Hk' & Hk1 & _ & -> & ->).
    assert (k' = k) as -> by congruence.
    set (x := Node k None None None sq 0 start end_ rf tg end_) in *.
    assert ((h ++ [x]) !! length h = Some x) as Hx.
    { rewrite lookup_app_r by lia. by rewrite Nat.sub_diag. }
    split.
    + eapply (insert_forest fuel (h ++ [x]) self (length h) x);
        [by apply forest_alloc|done|done| |exact Hins].
      destruct Hself as [sn Hsn]. apply lookup_lt_Some in Hsn. lia.
    + exists (k + 1). split; [done|].
      intros a n Ha.
      destruct (same_entries_node_id _ _ _ _ (insert_entries _ _ _ _ _ _ Hins) Ha)
        as (n0 & Hn0 & ->).
      apply lookup_snoc_Some in Hn0 as [Hn0|[_ ->]].
      * apply Hids in Hn0. lia.
      * simpl. lia.
Qed.

(** X20. The stored label: over every sequence of insertions, once an
    insertion has returned, the attribute [balance_factor] of every node
    has absolute value at most [1]; no stored value stays at [2] or [-2].
    (The attribute is not the difference of the subtree heights.) *)
Theorem balance_factor_within_one cls (h : list node) a n :
  reachable cls h → h !! a = Some n → Z.abs (balance_factor n) ≤ 1.
Proof.
  intros Hreach Ha.
  destruct (reachable_forest _ _ Hreach) as [(_ & _ & Hset) _].
  destruct (Hset _ _ Ha) as [Hb _]. lia.
Qed.

(** ** The loop of [__main__] builds reachable stores *)

Lemma same_entries_is_Some (h h' : list node) a :
  same_entries h h' → is_Some (h !! a) → is_Some (h' !! a).
Proof.
  intros He [n Hn]. specialize (He a). rewrite Hn in He.
  destruct (h' !! a); [eauto|done].
Qed.

Lemma main_reachable_from fuel intervals :
  ∀ cls (h : list node) t cls' h' t',
    reachable cls h → is_Some (h !! t) →
    main fuel cls h (Some t) intervals = Ok (cls', h', t') →
    reachable cls' h'.
Proof.
  induction intervals as [|[start end_] rest IH];
    intros cls h t cls' h' t' Hreach Ht H; simpl in H.
  { by injection H as <- <- <-. }
  apply bind_Ok in H as ([[cls1 h1] node] & Hinit & H).
  apply bind_Ok in H as ([h2 v] & Hins & H).
  eapply (IH cls1 h2 t); [|
    |exact H].
  - eapply reachable_insert; eauto.
  - eapply same_entries_is_Some; [eapply insert_entries, Hins|].
    apply __init___Ok in Hinit as (k & _ & _ & _ & -> & _).
    destruct Ht as [n Hn]. exists n. by apply lookup_app_l_Some.
Qed.

Lemma main_reachable fuel cls start end_ rest cls' h' t' :
  main fuel cls [] None ((start, end_) :: rest) = Ok (cls', h', t') →
  reachable cls' h'.
Proof.
  intros H. simpl in H.
  apply bind_Ok in H as ([[cls1 h1] node] & Hinit & H).
  eapply (main_reachable_from fuel rest cls1 h1 node); [| |exact H].
  - eapply reachable_first, Hinit.
  - apply __init___Ok in Hinit as (k & _ & _ & _ & -> & ->). by eexists.
Qed.

(** ** Runs *)

Lemma balance_factor_within_one_witness :
  ∃ cls h n,
    main 20 counting_from_zero [] None [(1, 1); (2, 2); (3, 3)]
      = Ok (cls, h, Some 0%nat) ∧
    reachable cls h ∧ h !! 1%nat = Some n ∧
    Z.abs (balance_factor n) ≤ 1.
Proof.
  do 3 eexists.
  split; [vm_compute; reflexivity|].
  assert (reachable (Class 0 (Some 3))
    [Node 0 None None (Some 1%nat) PyNone 0 1 1 PyNone PyNone 2;
     Node 1 (Some 0%nat) (Some 2%nat) None PyNone 0 2 2 PyNone PyNone 3;
     Node 2 None None (Some 1%nat) PyNone 0 3 3 PyNone PyNone 3]) as Hreach.
  { apply (main_reachable 20 counting_from_zero 1 1 [(2, 2); (3, 3)] _ _ (Some 0%nat)).
    vm_compute; reflexivity. }
  split; [exact Hreach|]. split; [reflexivity|].
  eapply (balance_factor_within_one _ _ 1%nat); [exact Hreach|reflexivity].
Defined.

(** C2 (the code departs from it). After [(1,1)], [(2,2)], [(3,10)] the
    third insertion rotates left at the first node; that node ends up a
    leaf holding the interval [(1,1)], yet its [max_position] is still [2],
    the value it had while [(2,2)] was below it. *)
Theorem max_position_stale_after_rotation :
  ∃ cls h n,
    main 20 counting_from_zero [] None [(1, 1); (2, 2); (3, 10)]
      = Ok (cls, h, Some 0%nat) ∧
    h !! 0%nat = Some n ∧
    left_child n = None ∧ right_child n = None ∧ interval_end n = 1 ∧
    max_position n = 2 ∧
    subtree_max_end 20 h 0%nat = Some 1.
Proof.
  do 3 eexists. split; [vm_compute; reflexivity|].
  split; [reflexivity|].
  split; [reflexivity|]. split; [reflexivity|]. split; [reflexivity|].
  split; [reflexivity|]. vm_compute; reflexivity.
Qed.

(** X9. [insert] has no [return] with a value: whenever it returns, it
    returns [None], also when a rotation has put another node on top. *)
Lemma insert_returns_nothing fuel (h : list node) self node h' v :
  insert fuel h self node = Ok (h', v) → v = None.
Proof.
  destruct fuel as [|fuel]; [done|]. rewrite insert_unfold. intros H.
  repeat (apply bind_Ok in H as (? & _ & H)). congruence.
Qed.

(** C3 (the code departs from it). With [(1,1)] and [(2,2)] in the tree
    and the first node on top, inserting [(3,3)] promotes the second node
    to the top, and [insert] returns [None]. *)
Theorem insert_returns_None_after_promotion :
  ∃ cls h cls' h1 node h2,
    main 20 counting_from_zero [] None [(1, 1); (2, 2)]
      = Ok (cls, h, Some 0%nat) ∧
    __init__ cls h 3 3 None None None PyNone PyNone PyNone
      = Ok (cls', h1, node) ∧
    get_root 20 h1 0%nat = Ok 0%nat ∧
    insert 20 h1 0%nat node = Ok (h2, None) ∧
    get_root 20 h2 0%nat = Ok 1%nat.
Proof.
  do 6 eexists. split; [vm_compute; reflexivity|].
  split; [vm_compute; reflexivity|].
  split; [vm_compute; reflexivity|].
  split; vm_compute; reflexivity.
Qed.

(** C4 (the code departs from it). Inserting [(3,3)], [(2,2)], [(1,1)]:
    the third insertion attaches under the second node, whose parent has no
    right child, and the driver reads [node_id] of [None]. *)
Theorem insert_descending_raises :
  main 20 counting_from_zero [] None [(3, 3); (2, 2); (1, 1)]
    = Raise AttributeError.
Proof. vm_compute. reflexivity. Qed.

(** C5 (the code departs from it). Two runs of the loop of [__main__].
    After [(1,1)], [(2,2)], [(3,3)] the handle [tree] is below the top, and
    [(5,5)] lands in the left subtree of [(2,2)]: in-order the starts read
    [1; 5; 2; 3].  After [(5,5)], [(9,9)], [(3,3)], [(1,1)], [(5,6)],
    [(4,4)], all inserted through the top, the double rotation leaves
    [(5,5)] as right child of [(5,6)]: a start in the right subtree equal
    to the start of the node. *)
Theorem ordering_broken_after_rotation :
  (∃ cls h top,
     main 20 counting_from_zero [] None [(1, 1); (2, 2); (3, 3); (5, 5)]
       = Ok (cls, h, Some 0%nat) ∧
     get_root 20 h 0%nat = Ok top ∧
     starts_of h (inorder 20 h (Some top)) = [1; 5; 2; 3]) ∧
  (∃ cls h top tn c cn,
     main 20 counting_from_zero [] None
          [(5, 5); (9, 9); (3, 3); (1, 1); (5, 6); (4, 4)]
       = Ok (cls, h, Some 0%nat) ∧
     get_root 20 h 0%nat = Ok top ∧
     h !! top = Some tn ∧ right_child tn = Some c ∧ h !! c = Some cn ∧
     interval_start cn = interval_start tn).
Proof.
  split.
  - do 3 eexists. split; [vm_compute; reflexivity|].
    split; [vm_compute; reflexivity|].
    vm_compute; reflexivity.
  - do 6 eexists. split; [vm_compute; reflexivity|].
    split; [vm_compute; reflexivity|].
    split; [reflexivity|]. split; [reflexivity|].
    split; reflexivity.
Qed.

(** C7, as the specification has it, fails: with the counter attribute
    bound, the interval [(5,3)] is accepted. *)
Lemma creation_accepts_malformed : ¬ creation_rejects_malformed.
Proof.
  intros H.
  destruct (proj1 (H counting_from_zero [] 5 3 None None None
                     PyNone PyNone PyNone)) as [e He]; [lia|].
  vm_compute in He. discriminate He.
Qed.

(** C7, amended. [__init__] compares nothing: whenever the counter
    attribute it reads is bound, creation succeeds for every pair of
    bounds, and the new node carries the bounds as given, [max_position]
    equal to its own end, balance factor [0] and the links it was given. *)
Theorem __init___accepts_any_interval cls (h : list node) k start end_
    l r p sq rf tg :
  _id_counter cls = Some k →
  __init__ cls h start end_ l r p sq rf tg
    = Ok (Class (id_counter cls) (Some (k + 1)),
          h ++ [Node k l r p sq 0 start end_ rf tg end_],
          length h).
Proof. intros Hk. unfold __init__. by rewrite Hk. Qed.

Lemma __init___accepts_any_interval_witness :
  _id_counter counting_from_zero = Some 0 ∧
  __init__ counting_from_zero [] 5 3 None None None PyNone PyNone PyNone
    = Ok (Class 0 (Some 1),
          [Node 0 None None None PyNone 0 5 3 PyNone PyNone 3], 0%nat).
Proof.
  split; [reflexivity|].
  apply (__init___accepts_any_interval counting_from_zero [] 0 5 3).
  reflexivity.
Defined.

(** C8, as the specification has it, fails: deletion returns normally. *)
Lemma deletion_not_rejected : ¬ deletion_is_rejected.
Proof. intros H. destruct (H [] 0%nat 0%nat) as [e He]. discriminate He. Qed.

(** C8, amended. [delete] returns [None] and leaves the store as it is,
    whatever the tree and the argument. *)
Theorem delete_is_a_no_op (h : list node) self node :
  delete h self node = Ok (h, None).
Proof. reflexivity. Qed.

(** C9 (the code departs from it). In the state the class body sets up,
    where the counter is bound as [id_counter], every creation stops at the
    read of [_id_counter]. *)
Theorem __init___raises_on_class_body (h : list node) start end_ l r p sq rf tg :
  __init__ class_body h start end_ l r p sq rf tg = Raise AttributeError.
Proof. reflexivity. Qed.

Lemma insert_places_by_descent_witness :
  two_linked_one_new !! 2%nat
    = Some (Node 2 None None None PyNone 0 3 3 PyNone PyNone 3) ∧
  insert 20 two_linked_one_new 0%nat 2%nat
    = insert_by_placement 20 two_linked_one_new 0%nat 2%nat ∧
  descent two_linked_one_new 3 0%nat [0%nat] 1%nat true.
Proof.
  pose proof (insert_places_by_descent 20 two_linked_one_new 0%nat 2%nat
                (Node 2 None None None PyNone 0 3 3 PyNone PyNone 3) eq_refl)
    as [Heq Hslot].
  split; [reflexivity|]. split; [exact Heq|].
  exact (proj1 (Hslot [0%nat] 1%nat true eq_refl)).
Defined.

Lemma insert_preserves_entries_witness :
  insert 20 two_linked_one_new 0%nat 2%nat
    = Ok ([Node 0 None None (Some 1%nat) PyNone 0 1 1 PyNone PyNone 2;
           Node 1 (Some 0%nat) (Some 2%nat) None PyNone 0 2 2 PyNone PyNone 3;
           Node 2 None None (Some 1%nat) PyNone 0 3 3 PyNone PyNone 3], None) ∧
  entry <$>
    [Node 0 None None (Some 1%nat) PyNone 0 1 1 PyNone PyNone 2;
     Node 1 (Some 0%nat) (Some 2%nat) None PyNone 0 2 2 PyNone PyNone 3;
     Node 2 None None (Some 1%nat) PyNone 0 3 3 PyNone PyNone 3] !! 0%nat
    = entry <$> two_linked_one_new !! 0%nat.
Proof.
  assert (insert 20 two_linked_one_new 0%nat 2%nat
    = Ok ([Node 0 None None (Some 1%nat) PyNone 0 1 1 PyNone PyNone 2;
           Node 1 (Some 0%nat) (Some 2%nat) None PyNone 0 2 2 PyNone PyNone 3;
           Node 2 None None (Some 1%nat) PyNone 0 3 3 PyNone PyNone 3], None))
    as Hrun by (vm_compute; reflexivity).
  split; [exact Hrun|].
  exact (insert_preserves_entries _ _ _ _ _ _ Hrun 0%nat).
Defined.

(** Insertions of intervals [(s, s)], the last one first in the list, each
    through the node given with it; the first node of the store holds
    [(50, 50)]. *)
Ltac grow_through steps :=
  lazymatch steps with
  | nil =>
      eapply (grown_first counting_from_zero 50 50 PyNone PyNone PyNone);
      reflexivity
  | cons (?top, ?s) ?rest =>
      eapply (grown_insert _ _ top _ s s PyNone PyNone PyNone _ _ _ 20);
      [ grow_through rest
      | reflexivity | reflexivity | reflexivity
      | vm_compute; reflexivity ]
  end.

(** C1 (the code departs from it). After the seven insertions
    [(50,50)], [(20,20)], [(60,60)], [(10,10)], [(30,30)], [(25,25)],
    [(70,70)] the node [(50,50)] has no left child and a right subtree of
    height [2]: its two subtrees differ in height by [2], while its stored
    [balance_factor] is [1].  This is so in the store the loop of
    [__main__] builds, and equally when every insertion goes through the
    node then on top (the sixth insertion puts [(30,30)] on top). *)
Theorem height_balance_broken_after_double_rotation :
  (∃ cls h n,
     main 20 counting_from_zero [] None
          [(50, 50); (20, 20); (60, 60); (10, 10); (30, 30); (25, 25); (70, 70)]
       = Ok (cls, h, Some 0%nat) ∧
     h !! 0%nat = Some n ∧ balance_factor n = 1 ∧
     height 20 h (right_child n) - height 20 h (left_child n) = 2) ∧
  (∃ cls h n,
     grown cls h ∧
     h !! 0%nat = Some n ∧ interval_start n = 50 ∧ balance_factor n = 1 ∧
     height 20 h (right_child n) - height 20 h (left_child n) = 2).
Proof.
  split.
  - do 3 eexists. split; [vm_compute; reflexivity|].
    split; [reflexivity|]. split; [reflexivity|]. vm_compute; reflexivity.
  - do 3 eexists. split.
    { grow_through [(4%nat, 70); (0%nat, 25); (0%nat, 30); (0%nat, 10);
                    (0%nat, 60); (0%nat, 20)]. }
    split; [reflexivity|]. split; [reflexivity|]. split; [reflexivity|].
    vm_compute; reflexivity.
Qed.

(** * More about the code *)

(** ** What is written, and how *)

Section evolution.
Context (R : node → node → Prop) `{!Reflexive R} `{!Transitive R}.
Context (R_left : ∀ v n, R n (set_left_child v n))
        (R_right : ∀ v n, R n (set_right_child v n))
        (R_parent : ∀ v n, R n (set_parent v n))
        (R_balance : ∀ v n, R n (set_balance_factor v n)).

Lemma evolves_refl (h : list node) : evolves R h h.
Proof. intros a. destruct (h !! a); by constructor. Qed.

Lemma evolves_trans (h1 h2 h3 : list node) :
  evolves R h1 h2 → evolves R h2 h3 → evolves R h1 h3.
Proof.
  intros H12 H23 a. specialize (H12 a). specialize (H23 a).
  destruct H12; inversion H23; simplify_eq; constructor. by etrans.
Qed.

Lemma evolves_store (h : list node) a f :
  (∀ n, h !! a = Some n → R n (f n)) → evolves R h (store a f h).
Proof.
  intros Hf x. rewrite lookup_store. case_decide; subst.
  - destruct (h !! x) as [n|] eqn:Hx; constructor. by apply Hf.
  - destruct (h !! x); by constructor.
Qed.

Ltac evolve_stores :=
  repeat first
    [ apply evolves_refl
    | eapply evolves_trans; [|apply evolves_store; intros; auto] ].

Lemma update_root_evolves fuel (h : list node) self h' v :
  update_root fuel h self = Ok (h', v) → evolves R h h'.
Proof.
  unfold update_root. intros H. repeat ok_step.
  destruct (parent _); repeat ok_step; evolve_stores.
Qed.

Lemma _single_left_rotation_evolves fuel (h : list node) self h' v :
  _single_left_rotation fuel h self = Ok (h', v) → evolves R h h'.
Proof.
  unfold _single_left_rotation. intros H. repeat ok_step.
  apply update_root_evolves in H.
  eapply evolves_trans; [|exact H]. clear H.
  repeat match goal with
  | H : match ?o with _ => _ end = Ok _ |- _ => destruct o; repeat ok_step
  | H : (if ?c then _ else _) = Ok _ |- _ => destruct c; repeat ok_step
  | |- context [match ?o with _ => _ end] => destruct o
  end; evolve_stores.
Qed.

Lemma _single_right_rotation_evolves fuel (h : list node) self h' v :
  _single_right_rotation fuel h self = Ok (h', v) → evolves R h h'.
Proof.
  unfold _single_right_rotation. intros H. repeat ok_step.
  apply update_root_evolves in H.
  eapply evolves_trans; [|exact H]. clear H.
  repeat match goal with
  | H : match ?o with _ => _ end = Ok _ |- _ => destruct o; repeat ok_step
  | H : (if ?c then _ else _) = Ok _ |- _ => destruct c; repeat ok_step
  | |- context [match ?o with _ => _ end] => destruct o
  end; evolve_stores.
Qed.

Lemma _double_right_left_rotation_evolves fuel (h : list node) self h' v :
  _double_right_left_rotation fuel h self = Ok (h', v) → evolves R h h'.
Proof.
  unfold _double_right_left_rotation. intros H.
  apply bind_Ok in H as (s & _ & H).
  apply bind_Ok in H as (r & _ & H).
  apply bind_Ok in H as ([h1 v1] & H1 & H).
  apply bind_Ok in H as ([h2 v2] & H2 & H). injection H as <- <-.
  eapply evolves_trans.
  - eapply _single_right_rotation_evolves, H1.
  - eapply _single_left_rotation_evolves, H2.
Qed.

Lemma _double_left_right_rotation_evolves fuel (h : list node) self h' v :
  _double_left_right_rotation fuel h self = Ok (h', v) → evolves R h h'.
Proof.
  unfold _double_left_right_rotation. intros H.
  apply bind_Ok in H as (s & _ & H).
  apply bind_Ok in H as (l & _ & H).
  apply bind_Ok in H as ([h1 v1] & H1 & H).
  apply bind_Ok in H as ([h2 v2] & H2 & H). injection H as <- <-.
  eapply evolves_trans.
  - eapply _single_left_rotation_evolves, H1.
  - eapply _single_right_rotation_evolves, H2.
Qed.

Lemma driver_evolves fuel :
  ∀ (h : list node) self dir h' v,
    _update_balance_factors_and_rebalance fuel h self dir = Ok (h', v) →
    evolves R h h'.
Proof.
  induction fuel as [|fuel IH]; intros h self dir h' v H; [done|].
  simpl in H.
  apply bind_Ok in H as (s & _ & H).
  eapply evolves_trans; [apply evolves_store; intros; apply R_balance|].
  apply bind_Ok in H as (s1 & _ & H).
  destruct (balance_factor s1 =? 0).
  { injection H as <- <-. apply evolves_refl. }
  destruct (Z.abs (balance_factor s1) >? 2); [done|].
  driver_branch H _single_left_rotation_evolves.
  driver_branch H _double_right_left_rotation_evolves.
  driver_branch H _single_right_rotation_evolves.
  driver_branch H _double_left_right_rotation_evolves.
  destruct (parent s1) as [p|].
  - apply bind_Ok in H as (pn & _ & H).
    apply bind_Ok in H as (r & _ & H).
    apply bind_Ok in H as (rn & _ & H).
    eapply IH, H.
  - injection H as <- <-. apply evolves_refl.
Qed.

Lemma attach_evolves (h : list node) p dir node :
  evolves R h (attach h p dir node).
Proof.
  unfold attach. eapply evolves_trans; apply evolves_store; intros.
  - apply R_parent.
  - destruct dir; [apply R_right|apply R_left].
Qed.

(** [insert], given that the closing [max_position] assignment respects
    [R] as well. *)
Lemma insert_evolves fuel :
  (∀ v n, max_position n ≤ v → R n (set_max_position v n)) →
  ∀ (h : list node) self node h' v,
    insert fuel h self node = Ok (h', v) → evolves R h h'.
Proof.
  intros R_max.
  induction fuel as [|fuel IH]; intros h self node h' v H; [done|].
  rewrite insert_unfold in H.
  apply bind_Ok in H as (s & _ & H).
  apply bind_Ok in H as (n & _ & H).
  apply bind_Ok in H as (h1 & Hbody & H).
  apply bind_Ok in H as (h2 & Hmax & H). injection H as <- <-.
  eapply (evolves_trans _ h1).
  - destruct (interval_start s >=? interval_start n).
    + destruct (left_child s).
      * apply bind_Ok in Hbody as ([hx vx] & Hr & Hbody).
        injection Hbody as <-. eapply IH, Hr.
      * apply bind_Ok in Hbody as ([hx vx] & Hr & Hbody).
        injection Hbody as <-.
        eapply evolves_trans; [apply attach_evolves|eapply driver_evolves, Hr].
    + destruct (right_child s).
      * apply bind_Ok in Hbody as ([hx vx] & Hr & Hbody).
        injection Hbody as <-. eapply IH, Hr.
      * apply bind_Ok in Hbody as ([hx vx] & Hr & Hbody).
        injection Hbody as <-.
        eapply evolves_trans; [apply attach_evolves|eapply driver_evolves, Hr].
  - unfold refresh_max_position in Hmax.
    apply bind_Ok in Hmax as (s1 & Hs1 & Hmax). apply get_Ok in Hs1.
    destruct (left_child s1), (right_child s1);
      repeat (apply bind_Ok in Hmax as (? & _ & Hmax));
      injection Hmax as <-; try apply evolves_refl;
      (apply evolves_store; intros sx Hsx;
       assert (sx = s1) as -> by congruence; apply R_max; lia).
Qed.
End evolution.

#[local] Instance keeps_max_position_refl : Reflexive keeps_max_position.
Proof. by intros n. Qed.
#[local] Instance keeps_max_position_trans : Transitive keeps_max_position.
Proof. unfold keeps_max_position. intros n1 n2 n3. congruence. Qed.
#[local] Instance raises_max_position_refl : Reflexive raises_max_position.
Proof. intros n. split; [lia|done]. Qed.
#[local] Instance raises_max_position_trans : Transitive raises_max_position.
Proof.
  unfold raises_max_position. intros n1 n2 n3 [? ?] [? ?].
  split; [lia|congruence].
Qed.

Lemma evolves_lookup R (h h' : list node) a n :
  evolves R h h' → h !! a = Some n → ∃ n', h' !! a = Some n' ∧ R n n'.
Proof.
  intros He Ha. specialize (He a). rewrite Ha in He.
  inversion He; simplify_eq. eauto.
Qed.

(** X1. The driver, with every rotation it performs, never writes
    [max_position]: whatever it returns, each object has the
    [max_position] it had. *)
Theorem driver_keeps_max_position fuel (h : list node) self dir h' v a n :
  _update_balance_factors_and_rebalance fuel h self dir = Ok (h', v) →
  h !! a = Some n →
  ∃ n', h' !! a = Some n' ∧ max_position n' = max_position n.
Proof.
  intros H Ha. eapply (evolves_lookup keeps_max_position); [|exact Ha].
  eapply (driver_evolves keeps_max_position); try exact H; by intros ? [].
Qed.

(** X2. An insertion that returns never lowers the [max_position] of any
    object. *)
Theorem insert_raises_max_position fuel (h : list node) self node h' v a n :
  insert fuel h self node = Ok (h', v) →
  h !! a = Some n →
  ∃ n', h' !! a = Some n' ∧ max_position n ≤ max_position n'.
Proof.
  intros H Ha.
  destruct (evolves_lookup raises_max_position h h' a n) as (n' & Hn' & Hle & _);
    [|exact Ha|eauto].
  eapply (insert_evolves raises_max_position); try exact H;
    intros ? []; split; simpl in *; (lia || done).
Qed.

Lemma insert_raises_end fuel (h : list node) self node h' v :
  insert fuel h self node = Ok (h', v) → evolves raises_max_position h h'.
Proof.
  intros H. eapply (insert_evolves raises_max_position); try exact H;
    intros ? []; split; simpl in *; (lia || done).
Qed.

(** X3. In a store built by insertions, [max_position] of every node is at
    least its own [interval_end]. *)
Theorem max_position_covers_own_end cls (h : list node) a n :
  reachable cls h → h !! a = Some n → interval_end n ≤ max_position n.
Proof.
  intros Hreach. revert a n.
  induction Hreach as [cls start end_ sq rf tg cls' h' a0 Hinit
                      |cls h self start end_ sq rf tg cls1 h1 node fuel h2 v
                         Hreach IH Hself Hinit Hins]; intros a n Ha.
  - apply __init___Ok in Hinit as (k & _ & _ & _ & -> & _).
    apply lookup_snoc_Some in Ha as [Ha|[_ ->]]; [by rewrite lookup_nil in Ha|].
    simpl. lia.
  - apply __init___Ok in Hinit as (k & _ & _ & _ & -> & _).
    pose proof (insert_raises_end _ _ _ _ _ _ Hins a) as He.
    rewrite Ha in He. inversion He as [n0 n' [Hle Hend] Hn0|]; simplify_eq.
    symmetry in Hn0. apply lookup_snoc_Some in Hn0 as [Hn0|[_ ->]].
    + apply IH in Hn0. lia.
    + simpl in *. lia.
Qed.

(** X4. In a store built by insertions the links agree: a child points back
    to its parent, a parent link is mirrored by a child link, and the two
    children of a node are different objects. *)
Theorem links_agree cls (h : list node) a n :
  reachable cls h → h !! a = Some n →
  (∀ c, left_child n = Some c ∨ right_child n = Some c →
        ∃ cn, h !! c = Some cn ∧ parent cn = Some a ∧ c ≠ a) ∧
  (∀ p, parent n = Some p →
        ∃ pn, h !! p = Some pn ∧
              (left_child pn = Some a ∨ right_child pn = Some a)) ∧
  (∀ c, left_child n = Some c → right_child n ≠ Some c).
Proof.
  intros Hreach Ha.
  destruct (reachable_forest _ _ Hreach) as [([rank Hl] & _ & _) _].
  split_and!.
  - intros c [Hc|Hc].
    + destruct (linked_left _ _ Hl _ _ _ Ha Hc) as (cn & ? & ? & ?).
      exists cn. split_and!; [done..|]. intros ->. lia.
    + destruct (linked_right _ _ Hl _ _ _ Ha Hc) as (cn & ? & ? & ?).
      exists cn. split_and!; [done..|]. intros ->. lia.
  - intros p Hp. by eapply linked_parent.
  - intros c Hc. by eapply linked_sides.
Qed.

(** X5. In a store built by insertions a stored balance factor never leans
    towards a missing child: without a left child it is not negative,
    without a right child it is not positive, so a leaf carries [0]. *)
Theorem balance_factor_leans_on_a_child cls (h : list node) a n :
  reachable cls h → h !! a = Some n →
  (left_child n = None → 0 ≤ balance_factor n) ∧
  (right_child n = None → balance_factor n ≤ 0).
Proof.
  intros Hreach Ha.
  destruct (reachable_forest _ _ Hreach) as [(_ & _ & Hset) _].
  destruct (Hset _ _ Ha) as (_ & ? & ?). done.
Qed.

(** X6. [update_root] is a lookup: whenever it returns, the store is the
    one it was given, the node returned is the one [get_root] finds, and
    that node has no parent; the assignment [root.parent = None] is never
    reached. *)
Theorem update_root_is_get_root fuel (h : list node) self h' v :
  update_root fuel h self = Ok (h', v) →
  h' = h ∧ get_root fuel h self = Ok v ∧
  ∃ n, h !! v = Some n ∧ parent n = None.
Proof.
  intros H. pose proof (update_root_noop _ _ _ _ _ H) as ->.
  split; [done|]. unfold update_root in H.
  apply bind_Ok in H as (root & Hroot & H).
  destruct (get_root_top _ _ _ _ Hroot) as (n & Hn & Hp).
  unfold get in H. rewrite Hn in H. simpl in H. rewrite Hp in H.
  injection H as <-. eauto.
Qed.

Lemma same_entries_length (h h' : list node) :
  same_entries h h' → length h' = length h.
Proof.
  intros He. apply Nat.le_antisymm.
  - destruct (decide (length h' ≤ length h)%nat); [done|exfalso].
    specialize (He (length h)).
    rewrite (lookup_ge_None_2 h) in He by lia.
    destruct (lookup_lt_is_Some_2 h' (length h)) as [x Hx]; [lia|].
    by rewrite Hx in He.
  - destruct (decide (length h ≤ length h')%nat); [done|exfalso].
    specialize (He (length h')).
    rewrite (lookup_ge_None_2 h') in He by lia.
    destruct (lookup_lt_is_Some_2 h (length h')) as [x Hx]; [lia|].
    by rewrite Hx in He.
Qed.

(** X7. With the counter attribute bound, identifiers follow creation
    order: in a store built by insertions the node created [a]-th (stored
    at index [a]) has identifier [k0 + a], where [k0] is where the counter
    started, and the counter stands at [k0] plus the number of nodes. *)
Theorem ids_follow_creation_order cls (h : list node) :
  reachable cls h →
  ∃ k0, _id_counter cls = Some (k0 + Z.of_nat (length h)) ∧
        ∀ a n, h !! a = Some n → node_id n = k0 + Z.of_nat a.
Proof.
  induction 1 as [cls start end_ sq rf tg cls' h' a0 Hinit
                 |cls h self start end_ sq rf tg cls1 h1 node fuel h2 v
                    Hreach (k0 & Hk0 & Hids) Hself Hinit Hins].
  - apply __init___Ok in Hinit as (k & _ & Hk' & _ & -> & _).
    exists k. split; [simpl; rewrite Hk'; f_equal; lia|].
    intros a n [Ha|[-> ->]]%lookup_snoc_Some; [by rewrite lookup_nil in Ha|].
    simpl. lia.
  - apply __init___Ok in Hinit as (k & Hk & Hk' & _ & -> & _).
    assert (k = k0 + Z.of_nat (length h)) as -> by congruence.
    pose proof (insert_entries _ _ _ _ _ _ Hins) as He.
    exists k0. split.
    + rewrite (same_entries_length _ _ He), length_app, Hk'. simpl.
      f_equal. lia.
    + intros a n Ha.
      destruct (same_entries_node_id _ _ _ _ He Ha) as (n0 & Hn0 & ->).
      apply lookup_snoc_Some in Hn0 as [Hn0|[-> ->]]; [eauto|done].
Qed.

Lemma main_keeps_handle fuel intervals :
  ∀ cls (h : list node) t cls' h' t',
    main fuel cls h (Some t) intervals = Ok (cls', h', t') →
    t' = Some t ∧ length h' = (length h + length intervals)%nat.
Proof.
  induction intervals as [|[start end_] rest IH];
    intros cls h t cls' h' t' H; simpl in H.
  { injection H as <- <- <-. split; [done|simpl; lia]. }
  apply bind_Ok in H as ([[cls1 h1] node] & Hinit & H).
  apply bind_Ok in H as ([h2 v] & Hins & H).
  apply IH in H as [-> ->]. split; [done|].
  rewrite (same_entries_length _ _ (insert_entries _ _ _ _ _ _ Hins)).
  apply __init___Ok in Hinit as (k & _ & _ & _ & -> & _).
  rewrite length_app. simpl. lia.
Qed.

(** X8. The loop of [__main__] never rebinds [tree]: a run that completes
    has created one node per interval and still holds the first node as
    its handle, whatever rotations took place. *)
Theorem main_holds_first_node fuel cls start end_ rest cls' (h' : list node) t' :
  main fuel cls [] None ((start, end_) :: rest) = Ok (cls', h', t') →
  t' = Some 0%nat ∧ length h' = S (length rest).
Proof.
  intros H. simpl in H.
  apply bind_Ok in H as ([[cls1 h1] node] & Hinit & H).
  apply __init___Ok in Hinit as (k & _ & _ & _ & -> & ->).
  apply main_keeps_handle in H as [-> ->]. done.
Qed.

Lemma driver_keeps_max_position_witness :
  ∃ h',
    _update_balance_factors_and_rebalance 20
      (attach two_linked_one_new 1%nat true 2%nat) 1%nat true = Ok (h', None) ∧
    attach two_linked_one_new 1%nat true 2%nat !! 0%nat
      = Some (Node 0 None (Some 1%nat) None PyNone 1 1 1 PyNone PyNone 2) ∧
    ∃ n', h' !! 0%nat = Some n' ∧ max_position n' = 2.
Proof.
  eexists. split; [vm_compute; reflexivity|]. split; [reflexivity|].
  eapply (driver_keeps_max_position 20
            (attach two_linked_one_new 1%nat true 2%nat) 1%nat true _ None 0%nat
            (Node 0 None (Some 1%nat) None PyNone 1 1 1 PyNone PyNone 2)).
  - vm_compute; reflexivity.
  - reflexivity.
Defined.

Lemma insert_raises_max_position_witness :
  ∃ h',
    insert 20 two_linked_one_new 0%nat 2%nat = Ok (h', None) ∧
    two_linked_one_new !! 1%nat
      = Some (Node 1 None None (Some 0%nat) PyNone 0 2 2 PyNone PyNone 2) ∧
    ∃ n', h' !! 1%nat = Some n' ∧ 2 ≤ max_position n'.
Proof.
  eexists. split; [vm_compute; reflexivity|]. split; [reflexivity|].
  eapply (insert_raises_max_position 20 two_linked_one_new 0%nat 2%nat _ None
            1%nat (Node 1 None None (Some 0%nat) PyNone 0 2 2 PyNone PyNone 2)).
  - vm_compute; reflexivity.
  - reflexivity.
Defined.

Lemma three_ascending_reachable : reachable (Class 0 (Some 3)) three_ascending.
Proof.
  apply (main_reachable 20 counting_from_zero 1 1 [(2, 2); (3, 3)] _ _
           (Some 0%nat)).
  vm_compute; reflexivity.
Qed.

Lemma max_position_covers_own_end_witness :
  reachable (Class 0 (Some 3)) three_ascending ∧
  ∃ n, three_ascending !! 0%nat = Some n ∧ interval_end n ≤ max_position n.
Proof.
  split; [exact three_ascending_reachable|].
  eexists. split; [reflexivity|].
  exact (max_position_covers_own_end _ three_ascending 0%nat _
           three_ascending_reachable eq_refl).
Defined.

Lemma links_agree_witness :
  reachable (Class 0 (Some 3)) three_ascending ∧
  ∃ n, three_ascending !! 1%nat = Some n ∧
       ∃ cn, three_ascending !! 2%nat = Some cn ∧ parent cn = Some 1%nat ∧
             2%nat ≠ 1%nat.
Proof.
  split; [exact three_ascending_reachable|].
  eexists. split; [reflexivity|].
  exact (proj1 (links_agree _ three_ascending 1%nat _
                  three_ascending_reachable eq_refl)
           2%nat (or_intror eq_refl)).
Defined.

Lemma balance_factor_leans_on_a_child_witness :
  reachable (Class 0 (Some 3)) three_ascending ∧
  ∃ n, three_ascending !! 2%nat = Some n ∧ 0 ≤ balance_factor n.
Proof.
  split; [exact three_ascending_reachable|].
  eexists. split; [reflexivity|].
  exact (proj1 (balance_factor_leans_on_a_child _ three_ascending 2%nat _
                  three_ascending_reachable eq_refl) eq_refl).
Defined.

Lemma update_root_is_get_root_witness :
  update_root 20 three_ascending 0%nat = Ok (three_ascending, 1%nat) ∧
  get_root 20 three_ascending 0%nat = Ok 1%nat.
Proof.
  assert (update_root 20 three_ascending 0%nat = Ok (three_ascending, 1%nat))
    as Hrun by (vm_compute; reflexivity).
  split; [exact Hrun|].
  exact (proj1 (proj2 (update_root_is_get_root _ _ _ _ _ Hrun))).
Defined.

Lemma ids_follow_creation_order_witness :
  reachable (Class 0 (Some 3)) three_ascending ∧
  ∃ k0, _id_counter (Class 0 (Some 3))
          = Some (k0 + Z.of_nat (length three_ascending)) ∧
        ∀ a n, three_ascending !! a = Some n → node_id n = k0 + Z.of_nat a.
Proof.
  split; [exact three_ascending_reachable|].
  exact (ids_follow_creation_order _ _ three_ascending_reachable).
Defined.

Lemma main_holds_first_node_witness :
  main 20 counting_from_zero [] None [(1, 1); (2, 2); (3, 3)]
    = Ok (Class 0 (Some 3), three_ascending, Some 0%nat) ∧
  Some 0%nat = Some 0%nat ∧ length three_ascending = 3%nat.
Proof.
  assert (main 20 counting_from_zero [] None [(1, 1); (2, 2); (3, 3)]
            = Ok (Class 0 (Some 3), three_ascending, Some 0%nat)) as Hrun
    by (vm_compute; reflexivity).
  split; [exact Hrun|].
  exact (main_holds_first_node _ _ _ _ _ _ _ _ Hrun).
Defined.

Lemma insert_returns_nothing_witness :
  ∃ h', insert 20 two_linked_one_new 0%nat 2%nat = Ok (h', None) ∧
        (None : option nat) = None.
Proof.
  eexists. split; [vm_compute; reflexivity|].
  eapply (insert_returns_nothing 20 two_linked_one_new 0%nat 2%nat).
  vm_compute; reflexivity.
Defined.

(** ** One tree: every node leads to the same top *)

Lemma ranked_below_bound rank (h : list node) a :
  (ranked_below rank h a ≤ length h)%nat.
Proof.
  unfold ranked_below.
  etrans; [apply length_filter|]. by rewrite length_seq.
Qed.

Lemma ranked_below_parent rank (h : list node) a p :
  is_Some (h !! p) → rank p < rank a →
  (ranked_below rank h p < ranked_below rank h a)%nat.
Proof.
  intros [pn Hp] Hlt. unfold ranked_below.
  rewrite <- (list_filter_filter_l (λ x, rank x < rank p)
                (λ x, rank x < rank a)) by (intros; lia).
  apply (length_filter_lt _ _ p); [|lia].
  apply list_elem_of_filter. split; [done|].
  apply elem_of_seq. apply lookup_lt_Some in Hp. lia.
Qed.

Lemma get_root_runs rank (h : list node) :
  linked rank h →
  ∀ fuel a, is_Some (h !! a) → (ranked_below rank h a < fuel)%nat →
            ∃ top, get_root fuel h a = Ok top.
Proof.
  intros Hl fuel. induction fuel as [|fuel IH]; intros a [n Ha] Hm; [lia|].
  simpl. unfold get. rewrite Ha. simpl.
  destruct (parent n) as [p|] eqn:Hp; [|eauto].
  destruct (linked_parent_child _ _ _ _ _ Hl Ha Hp) as (pn & Hpn & Hrk & _).
  apply IH; [by eexists|].
  pose proof (ranked_below_parent rank h a p (ex_intro _ pn Hpn) Hrk). lia.
Qed.

(** . In a store built by insertions the parent links never cycle:
    [get_root] returns from every node, after at most as many steps as
    there are nodes, and what it returns has no parent. *)
Lemma get_root_reaches_top cls (h : list node) a fuel :
  reachable cls h → is_Some (h !! a) → (length h < fuel)%nat →
  ∃ top n, get_root fuel h a = Ok top ∧ h !! top = Some n ∧ parent n = None.
Proof.
  intros Hreach Ha Hfuel.
  destruct (reachable_forest _ _ Hreach) as [([rank Hl] & _ & _) _].
  destruct (get_root_runs rank h Hl fuel a Ha) as [top Htop].
  { pose proof (ranked_below_bound rank h a). lia. }
  destruct (get_root_top _ _ _ _ Htop) as (n & Hn & Hp). eauto.
Qed.

Lemma only_top_store (h : list node) a f t :
  (∀ n, parent (f n) = parent n) → only_top h t → only_top (store a f h) t.
Proof.
  intros Hf Ht x n' Hx. apply lookup_store_Some in Hx as (n & Hn & ->).
  rewrite <- (Ht _ _ Hn). case_decide; [by rewrite Hf|done].
Qed.

Lemma rotate_only_top rank d fuel (h : list node) s h' v t :
  linked rank h → rotate d fuel h s = Ok (h', v) → only_top h t →
  ∃ t', only_top h' t'.
Proof.
  intros Hl H Ht.
  destruct (rotate_store _ _ _ _ _ _ _ Hl H)
    as (ns & r & nr & Hs & Hr & Hnr & ->).
  destruct (rotation_new_root rank h d s r ns nr Hl Hs Hr Hnr) as [Hpr Hrk].
  assert (s ≠ r) as Hsr by (intros ->; lia).
  assert (r ≠ t) as Hrt.
  { intros ->. pose proof (proj2 (Ht _ _ Hnr) eq_refl). congruence. }
  exists (if decide (s = t) then r else t).
  intros a n' Ha. rewrite (rotation_lookup rank) in Ha by done.
  destruct (h !! a) as [n|] eqn:Hna; [|done]. injection Ha as <-.
  rewrite parent_rotated_node.
  destruct (decide (a = s)) as [->|Has].
  { split; [done|]. case_decide; congruence. }
  destruct (decide (a = r)) as [->|Har].
  { rewrite (Ht _ _ Hs). case_decide; split; congruence. }
  case_decide as Hin.
  { split; [done|].
    destruct (linked_child _ _ (negb d) _ _ _ Hl Hnr Hin)
      as (nt & Hnt & Hpt & _).
    assert (a ≠ t).
    { intros ->. pose proof (proj2 (Ht _ _ Hnt) eq_refl). congruence. }
    case_decide; congruence. }
  rewrite (Ht _ _ Hna). case_decide; split; congruence.
Qed.

(** One guarded branch of the driver, for a property that needs the links
    to be well formed. *)
Ltac top_branch H tac :=
  let c := fresh "c" in
  apply bind_Ok in H as (c & _ & H);
  destruct c;
  [ let h2 := fresh "h" in let v2 := fresh "v" in
    let Hrot := fresh "Hrot" in
    apply bind_Ok in H as ([h2 v2] & Hrot & H); injection H as <- <-;
    tac Hrot
  | ].

Lemma driver_only_top fuel :
  ∀ rank (h : list node) self dir h' v t,
    linked rank h → only_top h t →
    _update_balance_factors_and_rebalance fuel h self dir = Ok (h', v) →
    ∃ t', only_top h' t'.
Proof.
  induction fuel as [|fuel IH]; intros rank h self dir h' v t Hl Ht H; [done|].
  simpl in H.
  apply bind_Ok in H as (s & _ & H).
  set (h1 := store self _ h) in *.
  assert (linked rank h1) as Hl1
    by (apply linked_store; [apply keeps_links_balance_factor|done]).
  assert (only_top h1 t) as Ht1 by (by apply only_top_store).
  clearbody h1.
  apply bind_Ok in H as (s1 & _ & H).
  destruct (balance_factor s1 =? 0).
  { injection H as <- <-. eauto. }
  destruct (Z.abs (balance_factor s1) >? 2); [done|].
  assert (∀ d hx vx, rotate d fuel h1 self = Ok (hx, vx) →
            ∃ t', only_top hx t') as Hsingle.
  { intros d hx vx Hrot. by eapply rotate_only_top. }
  assert (∀ d c hx vx h2 v2,
            rotate (negb d) fuel h1 c = Ok (h2, v2) →
            rotate d fuel h2 self = Ok (hx, vx) →
            ∃ t', only_top hx t') as Hdouble.
  { intros d c hx vx h2 v2 Hrot1 Hrot2.
    destruct (rotate_only_top _ _ _ _ _ _ _ _ Hl1 Hrot1 Ht1) as [t2 Ht2].
    destruct (rotate_effect _ _ _ _ _ _ _ Hl1 Hrot1) as [[rank2 Hl2] _].
    by eapply rotate_only_top. }
  top_branch H ltac:(fun Hrot => exact (Hsingle true _ _ Hrot)).
  top_branch H ltac:(fun Hrot =>
    unfold _double_right_left_rotation in Hrot;
    apply bind_Ok in Hrot as (? & _ & Hrot);
    apply bind_Ok in Hrot as (? & _ & Hrot);
    apply bind_Ok in Hrot as ([? ?] & Hrot1 & Hrot);
    apply bind_Ok in Hrot as ([? ?] & Hrot2 & Hrot);
    injection Hrot as <- <-;
    exact (Hdouble true _ _ _ _ _ Hrot1 Hrot2)).
  top_branch H ltac:(fun Hrot => exact (Hsingle false _ _ Hrot)).
  top_branch H ltac:(fun Hrot =>
    unfold _double_left_right_rotation in Hrot;
    apply bind_Ok in Hrot as (? & _ & Hrot);
    apply bind_Ok in Hrot as (? & _ & Hrot);
    apply bind_Ok in Hrot as ([? ?] & Hrot1 & Hrot);
    apply bind_Ok in Hrot as ([? ?] & Hrot2 & Hrot);
    injection Hrot as <- <-;
    exact (Hdouble false _ _ _ _ _ Hrot1 Hrot2)).
  destruct (parent s1) as [p|].
  - apply bind_Ok in H as (pn & _ & H).
    apply bind_Ok in H as (r & _ & H).
    apply bind_Ok in H as (rn & _ & H).
    by eapply (IH rank h1).
  - injection H as <- <-. eauto.
Qed.

Lemma attach_only_top (h : list node) self dir node t :
  self ≠ node → t ≠ node → top_and_new h t node →
  only_top (attach h self dir node) t.
Proof.
  intros Hne Htn Ht a n' Ha. rewrite attach_lookup in Ha by done.
  destruct (h !! a) as [n|] eqn:Hna; [|done]. injection Ha as <-.
  pose proof (Ht _ _ Hna) as Hiff.
  destruct (decide (a = self)) as [->|Has].
  { assert (parent (set_child dir (Some node) n) = parent n) as ->
      by by destruct dir.
    rewrite Hiff. split; [intros [?|?]; congruence|auto]. }
  case_decide as Han; [simpl; split; congruence|].
  rewrite Hiff. split; [intros [?|?]; congruence|auto].
Qed.

Lemma refresh_max_position_only_top (h : list node) self h' t :
  only_top h t → refresh_max_position h self = Ok h' → only_top h' t.
Proof.
  intros Ht H. unfold refresh_max_position in H.
  apply bind_Ok in H as (s & _ & H).
  destruct (left_child s), (right_child s);
    repeat (apply bind_Ok in H as (? & _ & H));
    injection H as <-; try done; by apply only_top_store.
Qed.

Lemma insert_only_top fuel :
  ∀ rank (h : list node) self node nn h' v t,
    linked rank h → top_and_new h t node → t ≠ node →
    h !! node = Some nn → detached nn → self ≠ node →
    insert fuel h self node = Ok (h', v) → ∃ t', only_top h' t'.
Proof.
  induction fuel as [|fuel IH];
    intros rank h self node nn h' v t Hl Ht Htn Hn Hdet Hne H; [done|].
  rewrite insert_unfold in H.
  apply bind_Ok in H as (s & Hs & H). apply get_Ok in Hs.
  apply bind_Ok in H as (n & Hn' & H). apply get_Ok in Hn'.
  assert (n = nn) as -> by congruence. clear Hn'.
  apply bind_Ok in H as (h1 & Hbody & H).
  apply bind_Ok in H as (h2 & Hmax & H). injection H as <- <-.
  assert (∃ t', only_top h1 t') as [t1 Ht1];
    [|eexists; by eapply refresh_max_position_only_top].
  clear Hmax.
  assert (∀ dir c, child dir s = Some c →
            ∀ hx vx, insert fuel h c node = Ok (hx, vx) →
                     ∃ t', only_top hx t') as Hrec.
  { intros dir c Hc hx vx Hrec.
    eapply (IH rank h c node nn); [done..| |exact Hrec].
    destruct (linked_child _ _ _ _ _ _ Hl Hs Hc) as (cn & Hcn & Hpc & _).
    intros ->. destruct Hdet as (_ & _ & Hp & _). congruence. }
  assert (∀ dir, child dir s = None →
            ∀ hx vx,
              _update_balance_factors_and_rebalance fuel
                (attach h self dir node) self dir = Ok (hx, vx) →
              ∃ t', only_top hx t') as Hdrv.
  { intros dir Hfree hx vx Hd.
    eapply (driver_only_top fuel (attached_rank rank self node));
      [by eapply attach_linked|by apply (attach_only_top _ _ _ _ t)|exact Hd]. }
  destruct (interval_start s >=? interval_start nn).
  - destruct (left_child s) as [c|] eqn:Hc.
    + apply bind_Ok in Hbody as ([hx vx] & Hr & Hbody). injection Hbody as <-.
      by eapply (Hrec false).
    + apply bind_Ok in Hbody as ([hx vx] & Hr & Hbody). injection Hbody as <-.
      by eapply (Hdrv false).
  - destruct (right_child s) as [c|] eqn:Hc.
    + apply bind_Ok in Hbody as ([hx vx] & Hr & Hbody). injection Hbody as <-.
      by eapply (Hrec true).
    + apply bind_Ok in Hbody as ([hx vx] & Hr & Hbody). injection Hbody as <-.
      by eapply (Hdrv true).
Qed.

Lemma reachable_only_top cls (h : list node) :
  reachable cls h → ∃ t, only_top h t.
Proof.
  induction 1 as [cls start end_ sq rf tg cls' h' a0 Hinit
                 |cls h self start end_ sq rf tg cls1 h1 node fuel h2 v
                    Hreach [t Ht] Hself Hinit Hins].
  - apply __init___Ok in Hinit as (k & _ & _ & _ & -> & _).
    exists 0%nat. intros a n [Ha|[-> ->]]%lookup_snoc_Some;
      [by rewrite lookup_nil in Ha|done].
  - destruct (get_root_reaches_top _ _ _ (S (length h)) Hreach Hself)
      as (top & tn & _ & Htop & Hpar); [lia|].
    assert (top = t) as -> by (by apply (Ht _ _ Htop)).
    destruct (reachable_forest _ _ Hreach) as [Hf (k & Hk & Hids)].
    apply __init___Ok in Hinit as (k' & Hk' & _ & _ & -> & ->).
    assert (k' = k) as -> by congruence.
    set (x := Node k None None None sq 0 start end_ rf tg end_) in *.
    destruct (forest_alloc h k start end_ sq rf tg Hf Hids) as ([rank Hl] & _ & _).
    fold x in Hl.
    pose proof (lookup_lt_Some _ _ _ Htop) as Htlt.
    destruct Hself as [sn Hsn]. pose proof (lookup_lt_Some _ _ _ Hsn) as Hslt.
    eapply (insert_only_top fuel rank (h ++ [x]) self (length h) x _ _ t);
      [done| |lia| |done|lia|exact Hins].
    + intros a n [Ha|[-> ->]]%lookup_snoc_Some.
      * pose proof (lookup_lt_Some _ _ _ Ha). rewrite (Ht _ _ Ha).
        split; [auto|intros [?|?]; [done|lia]].
      * split; [auto|done].
    + by rewrite lookup_app_r, Nat.sub_diag by lia.
Qed.

(** X10. Every node of a store built by insertions leads to the same top:
    [get_root] called on any node returns one and the same node, which has
    no parent, however the caller got hold of the node. *)
Theorem get_root_single_top cls (h : list node) :
  reachable cls h →
  ∃ top n, h !! top = Some n ∧ parent n = None ∧
    ∀ a fuel, is_Some (h !! a) → (length h < fuel)%nat →
              get_root fuel h a = Ok top.
Proof.
  intros Hreach.
  destruct (reachable_only_top _ _ Hreach) as [t Ht].
  assert (is_Some (h !! 0%nat)) as H0.
  { apply lookup_lt_is_Some.
    destruct (reachable_forest _ _ Hreach) as [_ (k & Hk & _)].
    destruct Hreach as [? ? ? ? ? ? ? ? ? Hinit|? ? ? ? ? ? ? ? ? ? ? ? ? ? Hr Hs Hinit Hins].
    - apply __init___Ok in Hinit as (? & _ & _ & _ & -> & _). simpl. lia.
    - apply __init___Ok in Hinit as (? & _ & _ & _ & -> & _).
      apply insert_entries, same_entries_length in Hins.
      rewrite length_app in Hins. simpl in Hins. lia. }
  destruct (get_root_reaches_top _ _ _ (S (length h)) Hreach H0)
    as (top & tn & _ & Htop & Hpar); [lia|].
  assert (top = t) as -> by (by apply (Ht _ _ Htop)).
  exists t, tn. split; [done|split; [done|]].
  intros a fuel Ha Hfuel.
  destruct (get_root_reaches_top _ _ _ fuel Hreach Ha Hfuel)
    as (top & n & Hrun & Hn & Hp).
  by rewrite Hrun, (proj1 (Ht _ _ Hn) Hp).
Qed.

Lemma get_root_single_top_witness :
  reachable (Class 0 (Some 3)) three_ascending ∧
  ∃ top n, three_ascending !! top = Some n ∧ parent n = None ∧
    ∀ a fuel, is_Some (three_ascending !! a) →
              (length three_ascending < fuel)%nat →
              get_root fuel three_ascending a = Ok top.
Proof.
  split; [exact three_ascending_reachable|].
  exact (get_root_single_top _ three_ascending three_ascending_reachable).
Defined.

(** ** Calls that come back

    Forward reasoning: with enough budget the rotations, the driver and
    [insert] return, or stop at the one read of an attribute of [None]. *)

Lemma get_bind {B} (h : list node) a n (f : node → result B) :
  h !! a = Some n → get h a ≫= f = f n.
Proof. intros Ha. unfold get. by rewrite Ha. Qed.

Lemma length_store (h : list node) a f : length (store a f h) = length h.
Proof. apply length_alter. Qed.

Lemma length_store_opt (h : list node) o f : length (store_opt o f h) = length h.
Proof. destruct o; [apply length_store|done]. Qed.

Lemma length_rotated d (h : list node) s r ns nr :
  length (rotated d h s r ns nr) = length h.
Proof.
  unfold rotated. by repeat first [rewrite length_store|rewrite length_store_opt].
Qed.

Lemma update_root_runs rank fuel (h : list node) a :
  linked rank h → is_Some (h !! a) → (length h < fuel)%nat →
  ∃ top tn, update_root fuel h a = Ok (h, top) ∧
            h !! top = Some tn ∧ parent tn = None.
Proof.
  intros Hl Ha Hfuel.
  destruct (get_root_runs rank h Hl fuel a Ha) as [top Htop].
  { pose proof (ranked_below_bound rank h a). lia. }
  unfold update_root. rewrite Htop. simpl.
  apply get_root_top in Htop as (n & Hn & Hp).
  exists top, n. rewrite (get_bind _ _ _ _ Hn). by rewrite Hp.
Qed.

(** A rotation at [s] that finds the child it promotes runs to the end. *)
Lemma rotate_runs rank d fuel (h : list node) s ns r :
  linked rank h → h !! s = Some ns → child d ns = Some r →
  (length h < fuel)%nat →
  ∃ nr v vn, h !! r = Some nr ∧
    rotate d fuel h s = Ok (rotated d h s r ns nr, v) ∧
    rotated d h s r ns nr !! v = Some vn ∧ parent vn = None.
Proof.
  intros Hl Hs Hr Hfuel.
  destruct (linked_child _ _ d _ _ _ Hl Hs Hr) as (nr & Hnr & Hpr & Hrk).
  exists nr.
  assert (s ≠ r) as Hsr by (intros ->; lia).
  assert (∀ t, child (negb d) nr = Some t → t ≠ s ∧ t ≠ r) as Ht.
  { intros t Ht.
    destruct (linked_child _ _ (negb d) _ _ _ Hl Hnr Ht) as (? & _ & _ & ?).
    split; intros ->; lia. }
  assert (∀ p, parent ns = Some p →
            p ≠ s ∧ p ≠ r ∧ child (negb d) nr ≠ Some p ∧ is_Some (h !! p)) as Hp.
  { intros p Hp.
    destruct (linked_parent_child _ _ _ _ _ Hl Hs Hp) as (pn & Hpn & Hps & _).
    split_and!; [intros ->; lia..| |eauto].
    intros Hq.
    destruct (linked_child _ _ (negb d) _ _ _ Hl Hnr Hq) as (? & _ & _ & ?).
    lia. }
  destruct (update_root_runs (rotated_rank rank s r) fuel
              (rotated d h s r ns nr) r) as (top & tn & Htop & Htn & Hptn).
  { by eapply rotation_linked. }
  { rewrite (rotation_lookup rank) by done. by rewrite Hnr. }
  { by rewrite length_rotated. }
  exists top, tn. split; [done|]. split; [|done]. rewrite <- Htop.
  set (ot := child (negb d) nr) in *.
  assert (store_opt ot (set_parent (Some s))
            (store s (set_child d ot) h) !! s
          = Some (set_child d ot ns)) as Hs1.
  { rewrite lookup_store_opt. case_decide as Hq.
    - by destruct (Ht _ Hq).
    - look_goal. by rewrite Hs. }
  assert (parent (set_child d ot ns) = parent ns) as Hpar by by destruct d.
  assert (rotate d fuel h s =
    (nr0 ← get (store s (set_child d ot) h) r;
     let h := store_opt (child (negb d) nr0) (set_parent (Some s))
                (store s (set_child d ot) h) in
     s0 ← get h s;
     let h := store r (set_parent (parent s0)) h in
     s1 ← get h s;
     h ← match parent s1 with
         | None => Ok h
         | Some p =>
             pn ← get h p;
             if decide (Some s = left_child pn)
             then Ok (store p (set_left_child (Some r)) h)
             else Ok (store p (set_right_child (Some r)) h)
         end;
     update_root fuel
       (store r (set_balance_factor 0)
         (store s (set_balance_factor 0)
           (store s (set_parent (Some r))
             (store r (set_child (negb d) (Some s)) h)))) r)) as ->.
  { unfold ot. destruct d; simpl in *.
    all: unfold _single_left_rotation, _single_right_rotation.
    all: rewrite (get_bind _ _ _ _ Hs); rewrite Hr; simpl.
    all: by rewrite (get_bind _ _ _ _ Hnr). }
  erewrite get_bind; [|look_goal; exact Hnr].
  cbv zeta. fold ot.
  rewrite (get_bind _ _ _ _ Hs1), Hpar.
  erewrite get_bind; [|look_goal; exact Hs1].
  rewrite Hpar. unfold rotated. fold ot.
  destruct (parent ns) as [p|] eqn:Hpp; simpl; [|done].
  destruct (Hp p eq_refl) as (Hps & Hpr' & Hpt & [pn Hpn]).
  erewrite get_bind.
  2:{ look_goal. rewrite lookup_store_opt, decide_False by done. look_goal.
      exact Hpn. }
  erewrite store_reparent.
  2:{ look_goal. rewrite lookup_store_opt, decide_False by done. look_goal.
      exact Hpn. }
  by case_decide.
Qed.


















(** X13. A single rotation at [s], in a store whose links agree and where
    [s] has the child [r] the rotation promotes (the right child for the
    left rotation, the left child for the right rotation), returns; the
    store it leaves is the old one with [s], [r], the inner child of [r]
    and the former parent of [s] relinked as [rotated_node] says and every
    other object as it was; its links agree again, and the value returned
    is a node without a parent. *)
Theorem single_rotation_relinks rank d fuel (h : list node) s ns r :
  linked rank h → h !! s = Some ns → child d ns = Some r →
  (length h < fuel)%nat →
  ∃ nr h' top tn,
    h !! r = Some nr ∧
    rotate d fuel h s = Ok (h', top) ∧
    (∀ x, h' !! x = rotated_node d s r ns nr x <$> h !! x) ∧
    (∃ rank', linked rank' h') ∧
    h' !! top = Some tn ∧ parent tn = None.
Proof.
  intros Hl Hs Hr Hfuel.
  destruct (rotate_runs rank d fuel h s ns r Hl Hs Hr Hfuel)
    as (nr & top & tn & Hnr & Hrot & Htn & Hp).
  exists nr, (rotated d h s r ns nr), top, tn.
  split; [done|]. split; [done|].
  split; [intros x; by apply (rotation_lookup rank)|].
  split; [eexists; by eapply rotation_linked|done].
Qed.



Lemma single_rotation_relinks_witness :
  (∃ rank, linked rank three_ascending) ∧
  ∃ nr h' top tn,
    three_ascending !! 2%nat = Some nr ∧
    rotate true 20 three_ascending 1%nat = Ok (h', top) ∧
    (∀ x, h' !! x
          = rotated_node true 1%nat 2%nat
              (Node 1 (Some 0%nat) (Some 2%nat) None PyNone 0 2 2
                    PyNone PyNone 3) nr x
            <$> three_ascending !! x) ∧
    (∃ rank', linked rank' h') ∧
    h' !! top = Some tn ∧ parent tn = None.
Proof.
  destruct (reachable_forest _ _ three_ascending_reachable)
    as [([rank Hl] & _) _].
  split; [by exists rank|].
  apply (single_rotation_relinks rank true 20 three_ascending 1%nat _ 2%nat Hl).
  - reflexivity.
  - reflexivity.
  - simpl. lia.
Defined.

(** ** Search order under rotations and insertions *)

Lemma interval_start_rotated_node d s r ns nr x n :
  interval_start (rotated_node d s r ns nr x n) = interval_start n.
Proof.
  unfold rotated_node, reparent. repeat case_decide; by destruct d.
Qed.

Lemma child_bounds_swap d b ks kr :
  child_bounds (negb d) (child_bounds d b ks) kr
  = child_bounds d (child_bounds (negb d) b kr) ks.
Proof. by destruct d, b. Qed.

Lemma child_bounds_again d b k1 k2 :
  child_bounds d (child_bounds d b k1) k2 = child_bounds d b k2.
Proof. by destruct d, b. Qed.

Lemma bounded_store bnd (h : list node) a f :
  keeps_links f → (∀ n, interval_start (f n) = interval_start n) →
  bounded bnd h → bounded bnd (store a f h).
Proof.
  intros Hf Hst Hb. split.
  - intros x n' Hx. apply lookup_store_Some in Hx as (n & Hn & ->).
    assert (interval_start (if decide (a = x) then f n else n)
            = interval_start n) as -> by (case_decide; [apply Hst|done]).
    by apply (bounded_own _ _ Hb).
  - intros d x n' c Hx Hc. apply lookup_store_Some in Hx as (n & Hn & ->).
    assert (interval_start (if decide (a = x) then f n else n)
            = interval_start n) as -> by (case_decide; [apply Hst|done]).
    apply (bounded_child _ _ Hb d x n c Hn).
    case_decide; [|done]. destruct (Hf n) as (_ & Hlc & Hrc & _).
    destruct d; simpl in *; congruence.
  - intros x n' Hx Hp. apply lookup_store_Some in Hx as (n & Hn & ->).
    apply (bounded_top _ _ Hb x n Hn).
    case_decide; [|done]. destruct (Hf n) as (_ & _ & _ & Hpar). congruence.
Qed.

Section rotation_bounds.
Context (rank : nat → Z) (bnd : nat → option Z * option Z).
Context (h : list node) (d : bool) (s r : nat) (ns nr : node).
Context (Hl : linked rank h) (Hb : bounded bnd h).
Context (Hs : h !! s = Some ns) (Hr : child d ns = Some r).
Context (Hnr : h !! r = Some nr).

Lemma rotation_bounded_own a n' :
  rotated d h s r ns nr !! a = Some n' →
  above (rotated_bounds bnd d s r nr a).1 (interval_start n') ∧
  under (interval_start n') (rotated_bounds bnd d s r nr a).2.
Proof.
  destruct (rotation_new_root rank h d s r ns nr Hl Hs Hr Hnr) as [Hpr Hrk].
  intros Ha. rewrite (rotation_lookup rank) in Ha by done.
  destruct (h !! a) as [n|] eqn:Hna; [|done]. injection Ha as <-.
  rewrite interval_start_rotated_node. unfold rotated_bounds.
  pose proof (bounded_own _ _ Hb _ _ Hs) as [Hlo_s Hhi_s].
  pose proof (bounded_own _ _ Hb _ _ Hnr) as [Hlo_r Hhi_r].
  pose proof (bounded_child _ _ Hb d _ _ _ Hs Hr) as Hbr.
  rewrite Hbr in Hlo_r, Hhi_r.
  destruct (bnd s) as [lo hi].
  destruct (decide (a = r)) as [->|Har].
  { assert (n = nr) as -> by congruence.
    destruct d, lo, hi; simpl in *; lia. }
  destruct (decide (a = s)) as [->|Has].
  { assert (n = ns) as -> by congruence.
    destruct d, lo, hi; simpl in *; lia. }
  by apply (bounded_own _ _ Hb).
Qed.

Lemma rotation_bounded_child e a n' c :
  rotated d h s r ns nr !! a = Some n' → child e n' = Some c →
  rotated_bounds bnd d s r nr c
  = child_bounds e (rotated_bounds bnd d s r nr a) (interval_start n').
Proof.
  destruct (rotation_new_root rank h d s r ns nr Hl Hs Hr Hnr) as [Hpr Hrk].
  assert (s ≠ r) as Hsr by (intros ->; lia).
  intros Ha Hc. rewrite (rotation_lookup rank) in Ha by done.
  destruct (h !! a) as [n|] eqn:Hna; [|done]. injection Ha as <-.
  rewrite child_rotated_node in Hc. rewrite interval_start_rotated_node.
  pose proof (bounded_child _ _ Hb d _ _ _ Hs Hr) as Hbr.
  assert (∀ e' c', child e' n = Some c' → c' ≠ s → c' ≠ r →
            rotated_bounds bnd d s r nr c'
            = child_bounds e' (bnd a) (interval_start n)) as Hold.
  { intros e' c' Hc' Hcs Hcr. unfold rotated_bounds.
    rewrite !decide_False by done. by apply (bounded_child _ _ Hb e' a n). }
  destruct (decide (a = s)) as [->|Has].
  { assert (n = ns) as -> by congruence.
    unfold rotated_bounds at 2. rewrite decide_False, decide_True by done.
    destruct (decide (e = d)) as [->|Hed].
    - destruct (linked_child _ _ _ _ _ _ Hl Hnr Hc) as (? & _ & _ & ?).
      unfold rotated_bounds. rewrite !decide_False by (intros ->; lia).
      rewrite (bounded_child _ _ Hb _ _ _ _ Hnr Hc), Hbr.
      apply child_bounds_swap.
    - assert (e = negb d) as -> by by destruct e, d.
      destruct (linked_child _ _ _ _ _ _ Hl Hs Hc) as (? & _ & _ & ?).
      assert (c ≠ r).
      { intros ->. by apply (linked_child_sides _ _ d _ _ _ Hl Hs Hr). }
      rewrite child_bounds_again.
      unfold rotated_bounds. rewrite !decide_False by (done || intros ->; lia).
      by apply (bounded_child _ _ Hb _ _ _ _ Hs). }
  destruct (decide (a = r)) as [->|Har].
  { assert (n = nr) as -> by congruence.
    unfold rotated_bounds at 2. rewrite decide_True by done.
    destruct (decide (e = d)) as [->|Hed].
    - destruct (linked_child _ _ _ _ _ _ Hl Hnr Hc) as (? & _ & _ & ?).
      unfold rotated_bounds. rewrite !decide_False by (intros ->; lia).
      rewrite (bounded_child _ _ Hb _ _ _ _ Hnr Hc), Hbr.
      apply child_bounds_again.
    - assert (e = negb d) as -> by by destruct e, d.
      injection Hc as <-.
      unfold rotated_bounds. by rewrite decide_False, decide_True by done. }
  unfold rotated_bounds at 2. rewrite !decide_False by done.
  destruct (decide (child (negb d) nr = Some a)) as [Hat|Hat].
  { destruct (linked_child _ _ _ _ _ _ Hl Hnr Hat) as (? & _ & _ & ?).
    destruct (linked_child _ _ _ _ _ _ Hl Hna Hc) as (? & _ & _ & ?).
    apply Hold; [done|intros ->; lia..]. }
  destruct (decide (parent ns = Some a)) as [Hap|Hap].
  { rewrite child_reparent in Hc.
    destruct (linked_parent_child _ _ _ _ _ Hl Hs Hap) as (pn & Hpn & Hrp & Hch).
    assert (pn = n) as -> by congruence.
    assert (child e n = Some c ∧ c ≠ s ∧ c ≠ r ∨ c = r ∧ child e n = Some s)
      as [(Hc' & Hcs & Hcr)|[-> Hc']].
    { assert (∀ e', child e' n ≠ Some r) as Hnor.
      { intros e' Hq.
        destruct (linked_child _ _ _ _ _ _ Hl Hna Hq) as (nr' & ? & ? & _).
        congruence. }
      destruct (decide (left_child n = Some s)) as [Hls|Hls];
        destruct e; simpl in *.
      - left. split; [done|]. split.
        + intros ->. by apply (linked_sides _ _ Hl _ _ _ Hna Hls).
        + intros ->. by apply (Hnor true).
      - right. by injection Hc as <-.
      - right. injection Hc as <-. split; [done|]. by destruct Hch.
      - left. split; [done|]. split.
        + intros ->. done.
        + intros ->. by apply (Hnor false). }
    - by apply Hold.
    - unfold rotated_bounds. rewrite decide_True by done.
      by apply (bounded_child _ _ Hb e a n). }
  destruct (linked_child _ _ _ _ _ _ Hl Hna Hc) as (cn & Hcn & Hpc & _).
  apply Hold; [done| |].
  - intros ->. congruence.
  - intros ->. congruence.
Qed.

Lemma rotation_bounded_top a n' :
  rotated d h s r ns nr !! a = Some n' → parent n' = None →
  rotated_bounds bnd d s r nr a = (None, None).
Proof.
  destruct (rotation_new_root rank h d s r ns nr Hl Hs Hr Hnr) as [Hpr Hrk].
  intros Ha Hp. rewrite (rotation_lookup rank) in Ha by done.
  destruct (h !! a) as [n|] eqn:Hna; [|done]. injection Ha as <-.
  rewrite parent_rotated_node in Hp. unfold rotated_bounds.
  destruct (decide (a = s)) as [->|Has]; [done|].
  destruct (decide (a = r)) as [->|Har].
  { by apply (bounded_top _ _ Hb s ns). }
  destruct (decide (child (negb d) nr = Some a)); [done|].
  by apply (bounded_top _ _ Hb a n).
Qed.

Lemma rotation_bounded :
  bounded (rotated_bounds bnd d s r nr) (rotated d h s r ns nr).
Proof.
  split.
  - apply rotation_bounded_own.
  - apply rotation_bounded_child.
  - apply rotation_bounded_top.
Qed.
End rotation_bounds.

Lemma rotate_bounded rank bnd d fuel (h : list node) s h' v :
  linked rank h → bounded bnd h → rotate d fuel h s = Ok (h', v) →
  ∃ bnd', bounded bnd' h'.
Proof.
  intros Hl Hb H.
  destruct (rotate_store _ _ _ _ _ _ _ Hl H)
    as (ns & r & nr & Hs & Hr & Hnr & ->).
  eexists. by eapply rotation_bounded.
Qed.

Lemma driver_bounded fuel :
  ∀ rank bnd (h : list node) self dir h' v,
    linked rank h → bounded bnd h →
    _update_balance_factors_and_rebalance fuel h self dir = Ok (h', v) →
    ∃ bnd', bounded bnd' h'.
Proof.
  induction fuel as [|fuel IH]; intros rank bnd h self dir h' v Hl Hb H; [done|].
  simpl in H.
  apply bind_Ok in H as (s & _ & H).
  set (h1 := store self _ h) in *.
  assert (linked rank h1) as Hl1
    by (apply linked_store; [apply keeps_links_balance_factor|done]).
  assert (bounded bnd h1) as Hb1
    by (apply bounded_store; [apply keeps_links_balance_factor|done|done]).
  clearbody h1.
  apply bind_Ok in H as (s1 & _ & H).
  destruct (balance_factor s1 =? 0).
  { injection H as <- <-. eauto. }
  destruct (Z.abs (balance_factor s1) >? 2); [done|].
  assert (∀ d hx vx, rotate d fuel h1 self = Ok (hx, vx) →
            ∃ bnd', bounded bnd' hx) as Hsingle.
  { intros d hx vx Hrot. by eapply rotate_bounded. }
  assert (∀ d c hx vx h2 v2,
            rotate (negb d) fuel h1 c = Ok (h2, v2) →
            rotate d fuel h2 self = Ok (hx, vx) →
            ∃ bnd', bounded bnd' hx) as Hdouble.
  { intros d c hx vx h2 v2 Hrot1 Hrot2.
    destruct (rotate_bounded _ _ _ _ _ _ _ _ Hl1 Hb1 Hrot1) as [bnd2 Hb2].
    destruct (rotate_effect _ _ _ _ _ _ _ Hl1 Hrot1) as [[rank2 Hl2] _].
    by eapply rotate_bounded. }
  top_branch H ltac:(fun Hrot => exact (Hsingle true _ _ Hrot)).
  top_branch H ltac:(fun Hrot =>
    unfold _double_right_left_rotation in Hrot;
    apply bind_Ok in Hrot as (? & _ & Hrot);
    apply bind_Ok in Hrot as (? & _ & Hrot);
    apply bind_Ok in Hrot as ([? ?] & Hrot1 & Hrot);
    apply bind_Ok in Hrot as ([? ?] & Hrot2 & Hrot);
    injection Hrot as <- <-;
    exact (Hdouble true _ _ _ _ _ Hrot1 Hrot2)).
  top_branch H ltac:(fun Hrot => exact (Hsingle false _ _ Hrot)).
  top_branch H ltac:(fun Hrot =>
    unfold _double_left_right_rotation in Hrot;
    apply bind_Ok in Hrot as (? & _ & Hrot);
    apply bind_Ok in Hrot as (? & _ & Hrot);
    apply bind_Ok in Hrot as ([? ?] & Hrot1 & Hrot);
    apply bind_Ok in Hrot as ([? ?] & Hrot2 & Hrot);
    injection Hrot as <- <-;
    exact (Hdouble false _ _ _ _ _ Hrot1 Hrot2)).
  destruct (parent s1) as [p|].
  - apply bind_Ok in H as (pn & _ & H).
    apply bind_Ok in H as (r & _ & H).
    apply bind_Ok in H as (rn & _ & H).
    by eapply (IH rank bnd h1).
  - injection H as <- <-. eauto.
Qed.

Lemma attach_bounded rank bnd (h : list node) self dir node s nn :
  linked rank h → bounded bnd h →
  h !! self = Some s → h !! node = Some nn → detached nn → self ≠ node →
  child dir s = None →
  above (bnd self).1 (interval_start nn) →
  under (interval_start nn) (bnd self).2 →
  (if dir then interval_start s ≤ interval_start nn
   else interval_start nn ≤ interval_start s) →
  bounded (λ x, if decide (x = node)
                then child_bounds dir (bnd self) (interval_start s)
                else bnd x)
          (attach h self dir node).
Proof.
  intros Hl Hb Hs Hn (Hnl & Hnr & Hnp & _) Hne Hfree Hlo Hhi Hside.
  assert (∀ e a n, h !! a = Some n → child e n ≠ Some node) as Hnochild.
  { intros e a n Ha Hc.
    destruct (linked_child _ _ _ _ _ _ Hl Ha Hc) as (nn' & ? & ? & _).
    congruence. }
  split.
  - intros a n' Ha. rewrite attach_lookup in Ha by done.
    destruct (h !! a) as [n|] eqn:Hna; [|done]. injection Ha as <-.
    destruct (decide (a = self)) as [->|Has].
    { rewrite decide_False by done.
      assert (interval_start (set_child dir (Some node) n) = interval_start n)
        as -> by by destruct dir.
      by apply (bounded_own _ _ Hb). }
    destruct (decide (a = node)) as [->|Han]; [|by apply (bounded_own _ _ Hb)].
    assert (n = nn) as -> by congruence. simpl.
    destruct dir, (bnd self) as [lo hi]; simpl in *; done.
  - intros e a n' c Ha Hc. rewrite attach_lookup in Ha by done.
    destruct (h !! a) as [n|] eqn:Hna; [|done]. injection Ha as <-.
    destruct (decide (a = self)) as [->|Has].
    { assert (n = s) as -> by congruence.
      rewrite (decide_False (P := self = node)) by done.
      assert (interval_start (set_child dir (Some node) s) = interval_start s)
        as -> by by destruct dir.
      destruct (decide (e = dir)) as [->|Hed].
      - assert (c = node) as -> by (destruct dir; simpl in Hc; congruence).
        by rewrite decide_True.
      - assert (child e s = Some c) as Hc'
          by (destruct e, dir; simpl in *; done).
        rewrite decide_False by (intros ->; by apply (Hnochild e self s)).
        by apply (bounded_child _ _ Hb e self s). }
    destruct (decide (a = node)) as [->|Han].
    { assert (n = nn) as -> by congruence.
      destruct e; simpl in Hc; congruence. }
    rewrite decide_False by (intros ->; by apply (Hnochild e a n)).
    by apply (bounded_child _ _ Hb e a n).
  - intros a n' Ha Hp. rewrite attach_lookup in Ha by done.
    destruct (h !! a) as [n|] eqn:Hna; [|done]. injection Ha as <-.
    destruct (decide (a = self)) as [->|Has].
    { rewrite decide_False by done.
      apply (bounded_top _ _ Hb self n Hna). by destruct dir. }
    destruct (decide (a = node)) as [->|Han]; [done|].
    by apply (bounded_top _ _ Hb a n).
Qed.

Lemma refresh_max_position_bounded bnd (h : list node) self h' :
  bounded bnd h → refresh_max_position h self = Ok h' → bounded bnd h'.
Proof.
  intros Hb H. unfold refresh_max_position in H.
  apply bind_Ok in H as (s & _ & H).
  destruct (left_child s), (right_child s);
    repeat (apply bind_Ok in H as (? & _ & H));
    injection H as <-; try done;
    (apply bounded_store; [apply keeps_links_max_position|done|done]).
Qed.

Lemma insert_bounded fuel :
  ∀ rank bnd (h : list node) self node nn h' v,
    linked rank h → bounded bnd h →
    h !! node = Some nn → detached nn → self ≠ node →
    above (bnd self).1 (interval_start nn) →
    under (interval_start nn) (bnd self).2 →
    insert fuel h self node = Ok (h', v) → ∃ bnd', bounded bnd' h'.
Proof.
  induction fuel as [|fuel IH];
    intros rank bnd h self node nn h' v Hl Hb Hn Hdet Hne Hlo Hhi H; [done|].
  rewrite insert_unfold in H.
  apply bind_Ok in H as (s & Hs & H). apply get_Ok in Hs.
  apply bind_Ok in H as (n & Hn' & H). apply get_Ok in Hn'.
  assert (n = nn) as -> by congruence. clear Hn'.
  apply bind_Ok in H as (h1 & Hbody & H).
  apply bind_Ok in H as (h2 & Hmax & H). injection H as <- <-.
  assert (∃ bnd1, bounded bnd1 h1) as [bnd1 Hb1];
    [|eexists; by eapply refresh_max_position_bounded].
  clear Hmax.
  assert (∀ dir c, child dir s = Some c →
            (if dir then interval_start s ≤ interval_start nn
             else interval_start nn ≤ interval_start s) →
            ∀ hx vx, insert fuel h c node = Ok (hx, vx) →
                     ∃ bnd', bounded bnd' hx) as Hrec.
  { intros dir c Hc Hside hx vx Hrec.
    destruct (linked_child _ _ _ _ _ _ Hl Hs Hc) as (cn & Hcn & Hpc & _).
    pose proof (bounded_child _ _ Hb _ _ _ _ Hs Hc) as Hbc.
    eapply (IH rank bnd h c node nn); [done|done|done|done| | | |exact Hrec].
    - intros ->. destruct Hdet as (_ & _ & Hp & _). congruence.
    - rewrite Hbc. destruct dir, (bnd self); simpl in *; done.
    - rewrite Hbc. destruct dir, (bnd self); simpl in *; done. }
  assert (∀ dir, child dir s = None →
            (if dir then interval_start s ≤ interval_start nn
             else interval_start nn ≤ interval_start s) →
            ∀ hx vx,
              _update_balance_factors_and_rebalance fuel
                (attach h self dir node) self dir = Ok (hx, vx) →
              ∃ bnd', bounded bnd' hx) as Hdrv.
  { intros dir Hfree Hside hx vx Hd.
    eapply (driver_bounded fuel (attached_rank rank self node));
      [by eapply attach_linked|by eapply attach_bounded|exact Hd]. }
  destruct (interval_start s >=? interval_start nn) eqn:Hcmp.
  - destruct (left_child s) as [c|] eqn:Hc.
    + apply bind_Ok in Hbody as ([hx vx] & Hr & Hbody). injection Hbody as <-.
      eapply (Hrec false); [done| |done]. lia.
    + apply bind_Ok in Hbody as ([hx vx] & Hr & Hbody). injection Hbody as <-.
      eapply (Hdrv false); [done| |done]. lia.
  - destruct (right_child s) as [c|] eqn:Hc.
    + apply bind_Ok in Hbody as ([hx vx] & Hr & Hbody). injection Hbody as <-.
      eapply (Hrec true); [done| |done]. lia.
    + apply bind_Ok in Hbody as ([hx vx] & Hr & Hbody). injection Hbody as <-.
      eapply (Hdrv true); [done| |done]. lia.
Qed.

Lemma grown_reachable cls (h : list node) : grown cls h → reachable cls h.
Proof.
  induction 1.
  - by eapply reachable_first.
  - eapply reachable_insert; eauto.
Qed.

Lemma grown_bounded cls (h : list node) :
  grown cls h → ∃ bnd, bounded bnd h.
Proof.
  induction 1 as [cls start end_ sq rf tg cls' h' a0 Hinit
                 |cls h top tn start end_ sq rf tg cls1 h1 node fuel h2 v
                    Hgrown [bnd Hb] Htop Hpar Hinit Hins].
  - apply __init___Ok in Hinit as (k & _ & _ & _ & -> & _).
    exists (λ _, (None, None)). split.
    + intros a n [Ha|[-> ->]]%lookup_snoc_Some;
        [by rewrite lookup_nil in Ha|done].
    + intros d a n c [Ha|[-> ->]]%lookup_snoc_Some Hc;
        [by rewrite lookup_nil in Ha|by destruct d].
    + done.
  - pose proof (grown_reachable _ _ Hgrown) as Hreach.
    destruct (reachable_forest _ _ Hreach) as [Hf (k & Hk & Hids)].
    apply __init___Ok in Hinit as (k' & Hk' & _ & _ & -> & ->).
    assert (k' = k) as -> by congruence.
    set (x := Node k None None None sq 0 start end_ rf tg end_) in *.
    destruct (forest_alloc h k start end_ sq rf tg Hf Hids) as ([rank Hl] & _ & _).
    fold x in Hl.
    pose proof (lookup_lt_Some _ _ _ Htop) as Htlt.
    pose proof (bounded_top _ _ Hb _ _ Htop Hpar) as Hbt.
    eapply (insert_bounded fuel rank
              (λ a, if decide (a = length h) then (None, None) else bnd a)
              (h ++ [x]) top (length h) x);
      [done| | |done|lia| | |exact Hins].
    + split.
      * intros a n [Ha|[-> ->]]%lookup_snoc_Some.
        -- pose proof (lookup_lt_Some _ _ _ Ha).
           rewrite decide_False by lia. by apply (bounded_own _ _ Hb).
        -- by rewrite decide_True.
      * intros d a n c [Ha|[-> ->]]%lookup_snoc_Some Hc; [|by destruct d].
        destruct Hf as ([rank0 Hl0] & _).
        destruct (linked_child _ _ _ _ _ _ Hl0 Ha Hc) as (cn & Hcn & _).
        pose proof (lookup_lt_Some _ _ _ Ha).
        pose proof (lookup_lt_Some _ _ _ Hcn).
        rewrite !decide_False by lia. by apply (bounded_child _ _ Hb d a n).
      * intros a n [Ha|[-> ->]]%lookup_snoc_Some Hp.
        -- pose proof (lookup_lt_Some _ _ _ Ha).
           rewrite decide_False by lia. by apply (bounded_top _ _ Hb a n).
        -- by rewrite decide_True.
    + by rewrite lookup_app_r, Nat.sub_diag by lia.
    + rewrite decide_False by lia. by rewrite Hbt.
    + rewrite decide_False by lia. by rewrite Hbt.
Qed.

Lemma below_bounds bnd (h : list node) c x :
  bounded bnd h → below h c x →
  ∀ nx, h !! x = Some nx →
        above (bnd c).1 (interval_start nx) ∧
        under (interval_start nx) (bnd c).2.
Proof.
  intros Hb. induction 1 as [a|d a n c x Ha Hc Hbelow IH]; intros nx Hx.
  - by apply (bounded_own _ _ Hb).
  - destruct (IH nx Hx) as [Hlo Hhi].
    rewrite (bounded_child _ _ Hb _ _ _ _ Ha Hc) in Hlo, Hhi.
    destruct (bounded_own _ _ Hb _ _ Ha) as [Hlo_a Hhi_a].
    destruct d, (bnd a) as [[lo|] [hi|]]; simpl in *; try done; lia.
Qed.

Lemma bounded_search_ordered bnd (h : list node) :
  bounded bnd h → search_ordered h.
Proof.
  intros Hb d a n c x nx Ha Hc Hbelow Hx.
  destruct (below_bounds _ _ _ _ Hb Hbelow nx Hx) as [Hlo Hhi].
  rewrite (bounded_child _ _ Hb _ _ _ _ Ha Hc) in Hlo, Hhi.
  by destruct d.
Qed.

(** X14. As long as every insertion goes through the node on top, the
    tree stays a search tree on [interval_start], rotations included:
    under every node, no start in the left subtree is larger and no start
    in the right subtree is smaller than the start of the node.  (Equal
    starts may end up on either side.) *)
Theorem insert_through_top_keeps_search_order cls (h : list node) :
  grown cls h → search_ordered h.
Proof.
  intros Hg. destruct (grown_bounded _ _ Hg) as [bnd Hb].
  by eapply bounded_search_ordered.
Qed.

Lemma three_ascending_grown : grown (Class 0 (Some 3)) three_ascending.
Proof.
  eapply (grown_insert (Class 0 (Some 2)) _ 0%nat _ 3 3 PyNone PyNone PyNone
            _ _ _ 20).
  - eapply (grown_insert (Class 0 (Some 1)) _ 0%nat _ 2 2 PyNone PyNone PyNone
              _ _ _ 20).
    + eapply (grown_first counting_from_zero 1 1 PyNone PyNone PyNone).
      reflexivity.
    + reflexivity.
    + reflexivity.
    + reflexivity.
    + vm_compute. reflexivity.
  - reflexivity.
  - reflexivity.
  - reflexivity.
  - vm_compute. reflexivity.
Qed.

Lemma insert_through_top_keeps_search_order_witness :
  grown (Class 0 (Some 3)) three_ascending ∧ search_ordered three_ascending.
Proof.
  split; [exact three_ascending_grown|].
  exact (insert_through_top_keeps_search_order _ _ three_ascending_grown).
Defined.

Lemma below_trans (h : list node) a b c :
  below h a b → below h b c → below h a c.
Proof.
  induction 1 as [a|d a n c' x Ha Hc Hbelow IH]; [done|].
  intros Hbc. eapply below_child; eauto.
Qed.

Lemma get_root_below rank (h : list node) :
  linked rank h →
  ∀ fuel a top, get_root fuel h a = Ok top → below h top a.
Proof.
  intros Hl. induction fuel as [|fuel IH]; intros a top H; [done|].
  simpl in H. apply bind_Ok in H as (n & Hn & H). apply get_Ok in Hn.
  destruct (parent n) as [p|] eqn:Hp.
  - destruct (linked_parent _ _ Hl _ _ _ Hn Hp) as (pn & Hpn & Hc).
    eapply below_trans; [by apply IH|].
    destruct Hc as [Hc|Hc].
    + eapply (below_child h false); [done|done|apply below_self].
    + eapply (below_child h true); [done|done|apply below_self].
  - injection H as <-. apply below_self.
Qed.

(** X15. No node is lost: in a store built by insertions, every node is
    reached from the one node without parent by following child links. *)
Theorem every_node_below_top cls (h : list node) :
  reachable cls h →
  ∃ top n, h !! top = Some n ∧ parent n = None ∧
    ∀ a, is_Some (h !! a) → below h top a.
Proof.
  intros Hreach.
  destruct (reachable_only_top _ _ Hreach) as [t Ht].
  destruct (reachable_forest _ _ Hreach) as [([rank Hl] & _) _].
  assert (∀ a, is_Some (h !! a) → below h t a) as Hall.
  { intros a Ha.
    destruct (get_root_reaches_top _ _ _ (S (length h)) Hreach Ha)
      as (top & n & Hrun & Hn & Hp); [lia|].
    assert (top = t) as -> by (by apply (Ht _ _ Hn)).
    by eapply get_root_below. }
  assert (is_Some (h !! 0%nat)) as H0.
  { apply lookup_lt_is_Some.
    destruct Hreach as [? ? ? ? ? ? ? ? ? Hinit
                       |? ? ? ? ? ? ? ? ? ? ? ? ? ? Hr Hs Hinit Hins].
    - apply __init___Ok in Hinit as (? & _ & _ & _ & -> & _). simpl. lia.
    - apply __init___Ok in Hinit as (? & _ & _ & _ & -> & _).
      apply insert_entries, same_entries_length in Hins.
      rewrite length_app in Hins. simpl in Hins. lia. }
  destruct (get_root_reaches_top _ _ _ (S (length h)) Hreach H0)
    as (top & tn & _ & Htop & Hpar); [lia|].
  assert (top = t) as -> by (by apply (Ht _ _ Htop)).
  eauto.
Qed.

Lemma every_node_below_top_witness :
  reachable (Class 0 (Some 3)) three_ascending ∧
  ∃ top n, three_ascending !! top = Some n ∧ parent n = None ∧
    ∀ a, is_Some (three_ascending !! a) → below three_ascending top a.
Proof.
  split; [exact three_ascending_reachable|].
  exact (every_node_below_top _ _ three_ascending_reachable).
Defined.

(** ** Where [insert] cannot return *)





(** ** Where the values of [max_position] come from *)

#[local] Instance keeps_positions_refl : Reflexive keeps_positions.
Proof. by intros n. Qed.
#[local] Instance keeps_positions_trans : Transitive keeps_positions.
Proof. unfold keeps_positions. intros n1 n2 n3 [? ?] [? ?]. split; congruence. Qed.

Lemma ends_known_evolves (h h' : list node) :
  evolves keeps_positions h h' → ends_known h → ends_known h'.
Proof.
  intros He Hk a n' Ha.
  pose proof (He a) as Hea. rewrite Ha in Hea.
  inversion Hea as [n n0 [Hmax _] Hn Hn0|]; simplify_eq.
  destruct (Hk a n) as (b & nb & Hb & Heq); [done|].
  destruct (evolves_lookup _ _ _ _ _ He Hb) as (nb' & Hb' & _ & Hend).
  exists b, nb'. split; [done|]. congruence.
Qed.

Lemma ends_known_store_max (h : list node) self v :
  ends_known h →
  (∃ c nc, h !! c = Some nc ∧ v = max_position nc) →
  ends_known (store self (set_max_position v) h).
Proof.
  intros Hk (c & nc & Hc & ->) a n' Ha.
  apply lookup_store_Some in Ha as (n & Hn & ->).
  assert (∃ b nb, h !! b = Some nb ∧
            max_position (if decide (self = a)
                          then set_max_position (max_position nc) n else n)
            = interval_end nb) as (b & nb & Hb & Heq).
  { case_decide; [by apply (Hk c nc)|by apply (Hk a n)]. }
  exists b, (if decide (self = b)
             then set_max_position (max_position nc) nb else nb).
  split; [by apply lookup_store_keep|]. rewrite Heq. destruct (decide (self = b)); [by destruct nb|done].
Qed.

Lemma refresh_max_position_ends_known (h : list node) self h' :
  ends_known h → refresh_max_position h self = Ok h' → ends_known h'.
Proof.
  intros Hk H. unfold refresh_max_position in H.
  apply bind_Ok in H as (s & Hs & H). apply get_Ok in Hs.
  destruct (left_child s) as [l|], (right_child s) as [r|].
  - apply bind_Ok in H as (ln & Hln & H). apply get_Ok in Hln.
    apply bind_Ok in H as (rn & Hrn & H). apply get_Ok in Hrn.
    injection H as <-. apply ends_known_store_max; [done|].
    destruct (Z.max_spec (max_position ln) (max_position rn)) as [[_ E1]|[_ E1]];
      destruct (Z.max_spec (Z.max (max_position ln) (max_position rn))
                  (max_position s)) as [[_ E2]|[_ E2]];
      rewrite E2, ?E1; eauto.
  - apply bind_Ok in H as (ln & Hln & H). apply get_Ok in Hln.
    injection H as <-. apply ends_known_store_max; [done|].
    destruct (Z.max_spec (max_position s) (max_position ln)) as [[_ E]|[_ E]];
      rewrite E; eauto.
  - apply bind_Ok in H as (rn & Hrn & H). apply get_Ok in Hrn.
    injection H as <-. apply ends_known_store_max; [done|].
    destruct (Z.max_spec (max_position s) (max_position rn)) as [[_ E]|[_ E]];
      rewrite E; eauto.
  - by injection H as <-.
Qed.

Lemma insert_ends_known fuel :
  ∀ (h : list node) self node h' v,
    ends_known h → insert fuel h self node = Ok (h', v) → ends_known h'.
Proof.
  induction fuel as [|fuel IH]; intros h self node h' v Hk H; [done|].
  rewrite insert_unfold in H.
  apply bind_Ok in H as (s & _ & H).
  apply bind_Ok in H as (n & _ & H).
  apply bind_Ok in H as (h1 & Hbody & H).
  apply bind_Ok in H as (h2 & Hmax & H). injection H as <- <-.
  eapply refresh_max_position_ends_known; [|exact Hmax]. clear Hmax.
  assert (∀ dir hx vx,
            _update_balance_factors_and_rebalance fuel
              (attach h self dir node) self dir = Ok (hx, vx) →
            ends_known hx) as Hdrv.
  { intros dir hx vx Hd. eapply ends_known_evolves; [|exact Hk].
    eapply (evolves_trans keeps_positions).
    - apply (attach_evolves keeps_positions); by intros ? [].
    - eapply (driver_evolves keeps_positions); try exact Hd; by intros ? []. }
  destruct (interval_start s >=? interval_start n).
  - destruct (left_child s).
    + apply bind_Ok in Hbody as ([hx vx] & Hr & Hbody).
      injection Hbody as <-. by eapply IH.
    + apply bind_Ok in Hbody as ([hx vx] & Hr & Hbody).
      injection Hbody as <-. by eapply Hdrv.
  - destruct (right_child s).
    + apply bind_Ok in Hbody as ([hx vx] & Hr & Hbody).
      injection Hbody as <-. by eapply IH.
    + apply bind_Ok in Hbody as ([hx vx] & Hr & Hbody).
      injection Hbody as <-. by eapply Hdrv.
Qed.

(** X17. In a store built by insertions, [max_position] of every node is
    the [interval_end] of some node of the store: the values are only ever
    copied from node to node, so none exceeds the largest end stored. *)
Theorem max_position_is_a_stored_end cls (h : list node) a n :
  reachable cls h → h !! a = Some n →
  ∃ b nb, h !! b = Some nb ∧ max_position n = interval_end nb.
Proof.
  intros Hreach. revert a n. change (ends_known h).
  induction Hreach as [cls start end_ sq rf tg cls' h' a0 Hinit
                      |cls h self start end_ sq rf tg cls1 h1 node fuel h2 v
                         Hreach IH Hself Hinit Hins].
  - apply __init___Ok in Hinit as (k & _ & _ & _ & -> & _).
    intros a n Ha. exists a, n. split; [done|].
    apply lookup_snoc_Some in Ha as [Ha|[_ ->]]; [by rewrite lookup_nil in Ha|].
    done.
  - apply __init___Ok in Hinit as (k & _ & _ & _ & -> & _).
    eapply insert_ends_known; [|exact Hins].
    intros a n [Ha|[-> ->]]%lookup_snoc_Some.
    + destruct (IH a n Ha) as (b & nb & Hb & Heq).
      exists b, nb. split; [by apply lookup_app_l_Some|done].
    + eexists (length h), _.
      split; [by rewrite lookup_app_r, Nat.sub_diag by lia|done].
Qed.

Lemma max_position_is_a_stored_end_witness :
  reachable (Class 0 (Some 3)) three_ascending ∧
  ∃ n, three_ascending !! 1%nat = Some n ∧
       ∃ b nb, three_ascending !! b = Some nb ∧
               max_position n = interval_end nb.
Proof.
  split; [exact three_ascending_reachable|].
  eexists. split; [reflexivity|].
  exact (max_position_is_a_stored_end _ three_ascending 1%nat _
           three_ascending_reachable eq_refl).
Defined.

(** ** Double rotations *)

Lemma double_rotation_unfold d fuel (h : list node) s ns c :
  h !! s = Some ns → child d ns = Some c →
  double_rotation d fuel h s =
    '(h, _) ← rotate (negb d) fuel h c;
    '(h, _) ← rotate d fuel h s;
    Ok (h, None).
Proof.
  intros Hs Hc.
  destruct d; simpl in *;
    unfold _double_right_left_rotation, _double_left_right_rotation;
    rewrite (get_bind _ _ _ _ Hs), Hc; done.
Qed.

Section double_rotation.
Context (rank : nat → Z) (h : list node) (d : bool) (s c t : nat).
Context (ns cn nt : node).
Context (Hl : linked rank h) (Hs : h !! s = Some ns)
        (Hc : child d ns = Some c) (Hcn : h !! c = Some cn)
        (Ht : child (negb d) cn = Some t) (Hnt : h !! t = Some nt).

Lemma double_rotation_ranks : rank s < rank c < rank t.
Proof.
  destruct (linked_child _ _ _ _ _ _ Hl Hs Hc) as (? & _ & _ & ?).
  destruct (linked_child _ _ _ _ _ _ Hl Hcn Ht) as (? & _ & _ & ?).
  lia.
Qed.

Lemma double_rotation_first x :
  rotated (negb d) h c t cn nt !! x
  = rotated_node (negb d) c t cn nt x <$> h !! x.
Proof. by apply (rotation_lookup rank). Qed.

Lemma double_rotation_first_s :
  rotated (negb d) h c t cn nt !! s = Some (set_child d (Some t) ns).
Proof.
  pose proof double_rotation_ranks as Hrk.
  destruct (linked_child _ _ _ _ _ _ Hl Hs Hc) as (cn' & Hcn' & Hpc & _).
  assert (cn' = cn) as -> by congruence. clear Hcn'.
  pose proof (linked_child_sides _ _ _ _ _ _ Hl Hs Hc) as Hside.
  rewrite double_rotation_first, Hs. simpl. f_equal.
  unfold rotated_node.
  rewrite decide_False by (intros ->; lia).
  rewrite decide_False by (intros ->; lia).
  rewrite decide_False.
  2:{ intros Hq.
      destruct (linked_child _ _ _ _ _ _ Hl Hnt Hq) as (? & _ & _ & ?). lia. }
  rewrite decide_True by done.
  unfold reparent. destruct d; simpl in *.
  - by rewrite decide_False by congruence.
  - by rewrite decide_True by congruence.
Qed.

Lemma double_rotation_first_t :
  rotated (negb d) h c t cn nt !! t
  = Some (set_balance_factor 0
            (set_child d (Some c) (set_parent (Some s) nt))).
Proof.
  pose proof double_rotation_ranks as Hrk.
  destruct (linked_child _ _ _ _ _ _ Hl Hs Hc) as (cn' & Hcn' & Hpc & _).
  assert (cn' = cn) as -> by congruence. clear Hcn'.
  rewrite double_rotation_first, Hnt. simpl. f_equal.
  unfold rotated_node.
  rewrite decide_False by (intros ->; lia).
  rewrite decide_True by done. by rewrite Hpc, negb_involutive.
Qed.

Lemma double_rotation_first_c :
  rotated (negb d) h c t cn nt !! c
  = Some (set_balance_factor 0
            (set_parent (Some t) (set_child (negb d) (child d nt) cn))).
Proof.
  rewrite double_rotation_first, Hcn. simpl. f_equal.
  unfold rotated_node. rewrite decide_True by done.
  by rewrite negb_involutive.
Qed.
End double_rotation.

(** X18. A double rotation at [s], in a store whose links agree, with [c]
    the child of [s] on the heavy side and [t] the inner child of [c],
    returns [None] and puts [t] in the place of [s]: [t] gets [s] and [c] as
    children and the former parent of [s] as parent, [s] and [c] take over
    the two subtrees of [t] and get [t] as parent, the former parent of [s]
    points to [t], and all three balance factors are set to [0], whatever
    the balance factor of [t] was; no other attribute of any object
    changes, and the links agree again. *)
Theorem double_rotation_relinks rank d fuel (h : list node) s ns c cn t :
  linked rank h → h !! s = Some ns → child d ns = Some c →
  h !! c = Some cn → child (negb d) cn = Some t →
  (length h < fuel)%nat →
  ∃ nt h',
    h !! t = Some nt ∧
    double_rotation d fuel h s = Ok (h', None) ∧
    h' !! t = Some (set_balance_factor 0
                     (set_parent (parent ns)
                        (set_child (negb d) (Some s)
                           (set_child d (Some c) nt)))) ∧
    h' !! s = Some (set_balance_factor 0
                     (set_parent (Some t)
                        (set_child d (child (negb d) nt) ns))) ∧
    h' !! c = Some (set_balance_factor 0
                     (set_parent (Some t)
                        (set_child (negb d) (child d nt) cn))) ∧
    (∀ x, x ≠ s → x ≠ c → x ≠ t →
          h' !! x =
            (λ n, if decide (child (negb d) nt = Some x)
                  then set_parent (Some s) n
                  else if decide (child d nt = Some x)
                  then set_parent (Some c) n
                  else if decide (parent ns = Some x) then reparent s t n
                  else n) <$> h !! x) ∧
    (∃ rank', linked rank' h').
Proof.
  intros Hl Hs Hc Hcn Ht Hfuel.
  destruct (linked_child _ _ _ _ _ _ Hl Hcn Ht) as (nt & Hnt & Hpt & _).
  pose proof (double_rotation_ranks rank h d s c t ns cn Hl Hs Hc Hcn Ht)
    as Hrk.
  destruct (linked_child _ _ _ _ _ _ Hl Hs Hc) as (cn' & Hcn' & Hpc & _).
  assert (cn' = cn) as -> by congruence. clear Hcn'.
  exists nt.
  destruct (rotate_runs rank (negb d) fuel h c cn t Hl Hcn Ht Hfuel)
    as (nt' & v1 & _ & Hnt' & Hrot1 & _).
  assert (nt' = nt) as -> by congruence. clear Hnt'.
  set (h1 := rotated (negb d) h c t cn nt) in *.
  assert (linked (rotated_rank rank c t) h1) as Hl1
    by by eapply rotation_linked.
  pose proof (double_rotation_first_s rank h d s c t ns cn nt
                Hl Hs Hc Hcn Ht Hnt) as Hs1.
  pose proof (double_rotation_first_t rank h d s c t ns cn nt
                Hl Hs Hc Hcn Ht Hnt) as Ht1.
  pose proof (double_rotation_first_c rank h d c t cn nt
                Hl Hcn Ht Hnt) as Hc1.
  fold h1 in Hs1, Ht1, Hc1.
  set (ns1 := set_child d (Some t) ns) in *.
  set (nt1 := set_balance_factor 0
                (set_child d (Some c) (set_parent (Some s) nt))) in *.
  assert (child d ns1 = Some t) as Hst by (unfold ns1; by destruct d).
  destruct (rotate_runs _ d fuel h1 s ns1 t Hl1 Hs1 Hst)
    as (nt1' & v2 & _ & Hnt1' & Hrot2 & _).
  { unfold h1. by rewrite length_rotated. }
  assert (nt1' = nt1) as -> by congruence. clear Hnt1'.
  set (h2 := rotated d h1 s t ns1 nt1) in *.
  exists h2. split; [done|].
  split.
  { rewrite (double_rotation_unfold d fuel h s ns c Hs Hc).
    rewrite Hrot1. simpl. by rewrite Hrot2. }
  assert (∀ x, h2 !! x = rotated_node d s t ns1 nt1 x <$> h1 !! x) as Hsecond.
  { intros x. by apply (rotation_lookup (rotated_rank rank c t)). }
  assert (child (negb d) nt1 = child (negb d) nt) as Hin
    by (unfold nt1; by destruct d).
  assert (parent ns1 = parent ns) as Hpar by (unfold ns1; by destruct d).
  split.
  { rewrite Hsecond, Ht1. simpl. f_equal. unfold rotated_node.
    rewrite decide_False by (intros ->; lia).
    rewrite decide_True by done. rewrite Hpar.
    unfold nt1. by destruct nt, d. }
  split.
  { rewrite Hsecond, Hs1. simpl. f_equal. unfold rotated_node.
    rewrite decide_True by done. rewrite Hin.
    unfold ns1. by destruct ns, d. }
  assert (∀ e x, child e nt = Some x → rank t < rank x) as Hbelow.
  { intros e x Hq.
    by destruct (linked_child _ _ _ _ _ _ Hl Hnt Hq) as (? & _ & _ & ?). }
  assert (∀ x, parent ns = Some x → rank x < rank s) as Habove.
  { intros x Hq.
    by destruct (linked_parent_child _ _ _ _ _ Hl Hs Hq) as (? & _ & ? & _). }
  split.
  { rewrite Hsecond, Hc1. simpl. f_equal. unfold rotated_node.
    rewrite decide_False by (intros ->; lia).
    rewrite decide_False by (intros ->; lia).
    rewrite Hin, Hpar.
    rewrite decide_False by (intros Hq; apply Hbelow in Hq; lia).
    rewrite decide_False by (intros Hq; apply Habove in Hq; lia).
    done. }
  split; [|eexists; by eapply rotation_linked].
  intros x Hxs Hxc Hxt.
  rewrite Hsecond. unfold h1.
  rewrite (double_rotation_first rank h d c t cn nt Hl Hcn Ht Hnt).
  destruct (h !! x) as [n|]; [|done]. simpl. f_equal.
  unfold rotated_node at 2.
  rewrite (decide_False (P := x = c)) by done.
  rewrite (decide_False (P := x = t)) by done.
  rewrite negb_involutive, Hpc.
  rewrite (decide_False (P := Some s = Some x)) by congruence.
  unfold rotated_node.
  rewrite (decide_False (P := x = s)) by done.
  rewrite (decide_False (P := x = t)) by done.
  rewrite Hin, Hpar.
  destruct (decide (child (negb d) nt = Some x)) as [Hq|Hq].
  { rewrite decide_False; [done|].
    intros Hq'. by apply (linked_child_sides _ _ _ _ _ _ Hl Hnt Hq'). }
  destruct (decide (child d nt = Some x)) as [Hq'|Hq']; [|done].
  rewrite decide_False; [done|].
  intros Hq''. apply Hbelow in Hq'. apply Habove in Hq''. lia.
Qed.

Lemma four_zigzag_reachable : reachable (Class 0 (Some 4)) four_zigzag.
Proof.
  apply (main_reachable 20 counting_from_zero 2 2 [(1, 1); (4, 4); (3, 3)] _ _
           (Some 0%nat)).
  vm_compute; reflexivity.
Qed.

Lemma double_rotation_relinks_witness :
  (∃ rank, linked rank four_zigzag) ∧
  ∃ h',
    double_rotation true 20 four_zigzag 0%nat = Ok (h', None) ∧
    h' !! 3%nat
      = Some (Node 3 (Some 0%nat) (Some 2%nat) None PyNone 0 3 3
                   PyNone PyNone 3) ∧
    h' !! 0%nat
      = Some (Node 0 (Some 1%nat) None (Some 3%nat) PyNone 0 2 2
                   PyNone PyNone 4) ∧
    h' !! 2%nat
      = Some (Node 2 None None (Some 3%nat) PyNone 0 4 4 PyNone PyNone 4).
Proof.
  destruct (reachable_forest _ _ four_zigzag_reachable)
    as [([rank Hl] & _) _].
  split; [by exists rank|].
  destruct (double_rotation_relinks rank true 20 four_zigzag 0%nat
              (Node 0 (Some 1%nat) (Some 2%nat) None PyNone 1 2 2
                    PyNone PyNone 4)
              2%nat
              (Node 2 (Some 3%nat) None (Some 0%nat) PyNone (-1) 4 4
                    PyNone PyNone 4)
              3%nat Hl eq_refl eq_refl eq_refl eq_refl)
    as (nt & h' & Hnt & Hrun & Ht & Hs & Hc & _); [simpl; lia|].
  injection Hnt as <-.
  exists h'. split; [exact Hrun|]. split; [exact Ht|]. split; [exact Hs|exact Hc].
Defined.

(** ** Printed form *)

Lemma app_sep_inj c (a a' r r' : string) :
  free_of c a → free_of c a' →
  a +:+ String c r = a' +:+ String c r' → a = a' ∧ r = r'.
Proof.
  revert a'. induction a as [|x a IH]; intros [|x' a']; simpl.
  - intros _ _ [= ->]. done.
  - intros _ [Hx _] [= -> _]. done.
  - intros [Hx _] _ [= -> _]. done.
  - intros [_ Ha] [_ Ha'] [= -> Heq].
    destruct (IH a' Ha Ha' Heq) as [-> ->]. done.
Qed.

Lemma free_of_pretty_N_go c x s :
  (∀ d, pretty_N_char d ≠ c) → free_of c s → free_of c (pretty_N_go x s).
Proof.
  intros Hc. revert s. induction (N.lt_wf_0 x) as [x _ IH]; intros s Hs.
  destruct (decide (x = 0)%N) as [->|Hx]; [by rewrite pretty_N_go_0|].
  rewrite pretty_N_go_step by lia. apply IH.
  - apply N.div_lt; lia.
  - simpl. split; [apply Hc|done].
Qed.

Lemma free_of_pretty_Z c (z : Z) :
  (∀ d, pretty_N_char d ≠ c) → c ≠ "-"%char → free_of c (pretty z).
Proof.
  intros Hc Hdash.
  assert (∀ p, free_of c (pretty (N.pos p))) as Hpos.
  { intros p. unfold pretty, pretty_N. case_decide; [done|].
    by apply free_of_pretty_N_go. }
  unfold pretty, pretty_Z. destruct z as [|p|p].
  - simpl. split; [apply (Hc 0%N)|done].
  - apply Hpos.
  - simpl. split; [done|apply Hpos].
Qed.

Lemma pretty_N_char_no_comma d : pretty_N_char d ≠ ","%char.
Proof. unfold pretty_N_char. repeat case_match; done. Qed.

Lemma pretty_N_char_no_paren d : pretty_N_char d ≠ ")"%char.
Proof. unfold pretty_N_char. repeat case_match; done. Qed.

Lemma format_int_Ok z a : format_int z = Ok a → a = pretty z.
Proof. unfold format_int. case_decide; congruence. Qed.

(** X19. The printed form of a node identifies its interval: whenever
    [__repr__] returns for two nodes, the two strings are equal exactly
    when the nodes have the same start and the same end. *)
Theorem __repr___identifies_interval (n n' : node) (s s' : string) :
  __repr__ n = Ok s → __repr__ n' = Ok s' →
  (s = s' ↔
   interval_start n = interval_start n' ∧ interval_end n = interval_end n').
Proof.
  unfold __repr__. intros H H'.
  apply bind_Ok in H as (a & Ha & H). apply bind_Ok in H as (b & Hb & H).
  apply bind_Ok in H' as (a' & Ha' & H'). apply bind_Ok in H' as (b' & Hb' & H').
  apply format_int_Ok in Ha as ->. apply format_int_Ok in Hb as ->.
  apply format_int_Ok in Ha' as ->. apply format_int_Ok in Hb' as ->.
  injection H as <-. injection H' as <-.
  split; [|by intros [-> ->]].
  intros H. simpl in H. injection H as H.
  apply (app_sep_inj ","%char) in H as [Hs H];
    [|by apply free_of_pretty_Z; [apply pretty_N_char_no_comma|]..].
  injection H as H.
  apply (app_sep_inj ")"%char) in H as [He _];
    [|by apply free_of_pretty_Z; [apply pretty_N_char_no_paren|]..].
  split; by apply (inj pretty).
Qed.

Lemma __repr___identifies_interval_witness :
  __repr__ (Node 0 None None None PyNone 0 1 2 PyNone PyNone 2)
    = Ok "(1, 2)"%string ∧
  __repr__ (Node 7 None None (Some 0%nat) PyNone 1 1 2 PyNone PyNone 9)
    = Ok "(1, 2)"%string ∧
  ("(1, 2)"%string = "(1, 2)"%string ↔ 1 = 1 ∧ 2 = 2).
Proof.
  split; [vm_compute; reflexivity|]. split; [vm_compute; reflexivity|].
  apply (__repr___identifies_interval
           (Node 0 None None None PyNone 0 1 2 PyNone PyNone 2)
           (Node 7 None None (Some 0%nat) PyNone 1 1 2 PyNone PyNone 9)
           "(1, 2)" "(1, 2)").
  - vm_compute; reflexivity.
  - vm_compute; reflexivity.
Defined.
